(** * 2D line of sight: [Vec2D] and [Camera2D]

    A shallow embedding of [CodeSample-2D_Line_of_Sight.cpp].

    The C++ type [float] is IEEE-754 binary32.  Its values and its five
    correctly rounded operations (addition, subtraction, multiplication,
    division, square root; rounding to nearest, ties to even) are the
    ones of the Standard Library's [SpecFloat], instantiated at 24 bits
    of precision and maximal exponent 128.  Every expression of the
    source is evaluated in binary32, operation by operation, in the
    order the source writes it (no extended precision, no contraction
    into fused multiply-add).  [std::abs] is its [float] overload and
    [sqrtf] is correctly rounded, as IEEE-754 requires.  [SpecFloat] has
    one NaN: the sign and the payload of a NaN are not modelled, and an
    equality between two results says, when one is NaN, that the other
    is NaN too.

    [std::acos] on [float] comes from the C library and is not part of
    the program's source: it is a parameter [acosf] of the camera query,
    and each theorem states what it needs from it. *)

From Stdlib Require Import ZArith Bool Lia Reals Lra.
From Stdlib Require Import List.
From Stdlib Require Import Floats.SpecFloat.
Import ListNotations.

Local Open Scope Z_scope.

(** ** binary32 *)

Module F32.

Definition prec : Z := 24.
Definition emax : Z := 128.

Definition float : Type := spec_float.

Definition add : float -> float -> float := SFadd prec emax.
Definition sub : float -> float -> float := SFsub prec emax.
Definition mul : float -> float -> float := SFmul prec emax.
Definition div : float -> float -> float := SFdiv prec emax.
Definition sqrtf : float -> float := SFsqrt prec emax.
Definition abs : float -> float := SFabs.

(** [a < b], [a <= b], [a == b] and [a != b] of C++; every comparison
    with a NaN is false, except [!=], which is true. *)
Definition ltb : float -> float -> bool := SFltb.
Definition leb : float -> float -> bool := SFleb.
Definition eqb : float -> float -> bool := SFeqb.
Definition neqb (a b : float) : bool := negb (SFeqb a b).
Definition gtb (a b : float) : bool := SFltb b a.

(** A value of the type: a finite one has a canonical mantissa and
    exponent. *)
Definition valid (x : float) : bool := valid_binary prec emax x.

Definition is_finite (x : float) : bool :=
  match x with
  | S754_zero _ | S754_finite _ _ _ => true
  | _ => false
  end.

Definition is_zero (x : float) : bool :=
  match x with
  | S754_zero _ => true
  | _ => false
  end.

(** A value of the type that is not an infinity or a NaN. *)
Definition finite (x : float) : bool := valid x && is_finite x.

(** The integer [n] as a float (rounded when it needs more than 24
    bits). *)
Definition of_Z (n : Z) : float := binary_normalize prec emax n 0 false.

(** A decimal literal [n / 10^k] of the source, [n] and [10^k] below
    [2^24]: the float nearest to the quotient. *)
Definition of_dec (n : Z) (pow10 : Z) : float := div (of_Z n) (of_Z pow10).

Definition zero : float := S754_zero false.
Definition one : float := of_Z 1.
Definition two : float := of_Z 2.

(** [std::numeric_limits<float>::max()] *)
Definition FLT_MAX : float := SFmax_float prec emax.

End F32.

Import F32.

(** ** Constants of the source *)

Definition PI_F : float := of_dec 314159 100000.
Definition MAX_FLOAT_TOLERANCE : float := of_dec 1 10000.

(** ** Vec2D *)

Record Vec2D : Type := mkVec2D { m_x : float; m_y : float }.

(** [Vec2D()], both arguments defaulted. *)
Definition Vec2D_default : Vec2D := mkVec2D zero zero.

Definition GetX (v : Vec2D) : float := m_x v.
Definition GetY (v : Vec2D) : float := m_y v.

(** [SetX] and [SetY] assign a member; here they return the updated
    vector. *)
Definition SetX (v : Vec2D) (x : float) : Vec2D := mkVec2D x (m_y v).
Definition SetY (v : Vec2D) (y : float) : Vec2D := mkVec2D (m_x v) y.

(** [operator==] *)
Definition vec_eq (this rhs : Vec2D) : bool :=
  gtb MAX_FLOAT_TOLERANCE (abs (sub (m_x this) (GetX rhs))) &&
  gtb MAX_FLOAT_TOLERANCE (abs (sub (m_y this) (GetY rhs))).

(** [operator+] *)
Definition vec_add (this rhs : Vec2D) : Vec2D :=
  mkVec2D (add (m_x this) (GetX rhs)) (add (m_y this) (GetY rhs)).

(** [operator-] *)
Definition vec_sub (this rhs : Vec2D) : Vec2D :=
  mkVec2D (sub (m_x this) (GetX rhs)) (sub (m_y this) (GetY rhs)).

Definition DotProduct (this vecIn : Vec2D) : float :=
  let xComp := mul (m_x this) (GetX vecIn) in
  let yComp := mul (m_y this) (GetY vecIn) in
  add xComp yComp.

Definition GetMagnitude (this : Vec2D) : float :=
  sqrtf (add (mul (m_x this) (m_x this)) (mul (m_y this) (m_y this))).

Definition GetNormalized (this : Vec2D) : Vec2D :=
  let result := Vec2D_default in
  let magnitude := GetMagnitude this in
  if neqb magnitude zero
  then mkVec2D (div (m_x this) magnitude) (div (m_y this) magnitude)
  else result.

(** ** Camera2D *)

Record Camera2D : Type := mkCamera2D {
  m_position : Vec2D;
  m_orientation : Vec2D;
  m_fieldOfView : float;
  m_viewDistance : float
}.

Definition SetPosition (c : Camera2D) (position : Vec2D) : Camera2D :=
  mkCamera2D position (m_orientation c) (m_fieldOfView c) (m_viewDistance c).

Definition SetOrientation (c : Camera2D) (orientation : Vec2D) : Camera2D :=
  mkCamera2D (m_position c) (GetNormalized orientation)
             (m_fieldOfView c) (m_viewDistance c).

Definition SetFieldOfView (c : Camera2D) (angleRad : float) : Camera2D :=
  mkCamera2D (m_position c) (m_orientation c) angleRad (m_viewDistance c).

Definition SetViewDistance (c : Camera2D) (distance : float) : Camera2D :=
  mkCamera2D (m_position c) (m_orientation c) (m_fieldOfView c) distance.

(** The constructor: the member initialisers, [m_orientation] default
    constructed, then the body's call of [SetOrientation]. *)
Definition Camera2D_new (position orientation : Vec2D)
    (fieldOfView viewDistance : float) : Camera2D :=
  SetOrientation
    (mkCamera2D position Vec2D_default (abs fieldOfView) (abs viewDistance))
    orientation.

(** The constructor with every argument defaulted. *)
Definition Camera2D_default : Camera2D :=
  Camera2D_new (mkVec2D zero zero) (mkVec2D zero one) PI_F FLT_MAX.

Section CanSeeTarget.

(** [std::acos] on [float]. *)
Variable acosf : float -> float.

Definition CanSeeTarget (c : Camera2D) (targetPosition : Vec2D) : bool :=
  if vec_eq targetPosition (m_position c) then false
  else
    let targetVisible := false in
    let vectorToTarget := vec_sub targetPosition (m_position c) in
    let distanceToTarget := GetMagnitude vectorToTarget in
    if leb distanceToTarget (m_viewDistance c) then
      let dot := DotProduct (m_orientation c) vectorToTarget in
      let angleToTarget := acosf (div dot distanceToTarget) in
      ltb angleToTarget (div (m_fieldOfView c) two)
    else targetVisible.

End CanSeeTarget.

(** ** The vectors and the camera of [main] *)

Definition vec0 : Vec2D := mkVec2D zero zero.
Definition vec1 : Vec2D := mkVec2D one zero.
Definition vec2 : Vec2D := mkVec2D zero one.
Definition vec3 : Vec2D := mkVec2D (of_Z (-1)) zero.
Definition vec5 : Vec2D := mkVec2D (of_Z 5) (of_Z 5).
Definition vec6 : Vec2D := mkVec2D (of_Z 42) (of_Z (-12)).
Definition vec16 : Vec2D := mkVec2D (of_dec 101 100) zero.
Definition vec7 : Vec2D := mkVec2D zero (of_Z 300).
Definition vec8 : Vec2D := mkVec2D zero (of_Z 50).
Definition vec9 : Vec2D := mkVec2D zero (of_Z (-50)).
Definition vec10 : Vec2D := mkVec2D (of_Z 50) zero.
Definition vec11 : Vec2D := mkVec2D (of_Z (-50)) zero.
Definition vec12 : Vec2D := mkVec2D (of_Z 50) (of_Z 50).
Definition vec13 : Vec2D := mkVec2D (of_Z 50) (of_dec 501 10).
Definition vec14 : Vec2D := mkVec2D (of_Z (-50)) (of_Z 50).
Definition vec15 : Vec2D := mkVec2D (of_Z (-50)) (of_dec 501 10).

(** Origin position, pointed up, 90 degrees field of view, 100 view
    distance. *)
Definition cam0 : Camera2D :=
  Camera2D_new (mkVec2D zero zero) (mkVec2D zero one)
               (div PI_F two) (of_Z 100).

(** The nine answers of [CanSeeTarget] that [main] prints, in order. *)
Definition main_camera_tests (acosf : float -> float) : list bool :=
  map (CanSeeTarget acosf cam0)
      [vec7; vec8; vec9; vec10; vec11; vec12; vec13; vec14; vec15].

(** ** Vocabulary of the theorems *)

(** What [CanSeeTarget] hands to the angular test: the local variable
    [angleToTarget] of the source. *)
Definition angleToTarget (acosf : float -> float) (c : Camera2D)
    (t : Vec2D) : float :=
  let vectorToTarget := vec_sub t (m_position c) in
  acosf (div (DotProduct (m_orientation c) vectorToTarget)
             (GetMagnitude vectorToTarget)).

Definition vec_finite (v : Vec2D) : bool := finite (m_x v) && finite (m_y v).

(** [x] is a finite float of absolute value at most [B] *)
Definition within (B x : float) : bool := valid x && leb (abs x) B.

Definition vec_within (B : float) (v : Vec2D) : bool :=
  within B (m_x v) && within B (m_y v).

(** [2^60] and [2^-60] *)
Definition two_p60 : float := S754_finite false 8388608 37.
Definition two_m60 : float := S754_finite false 8388608 (-83).

(** A vector that is neither tiny nor huge: both components of
    absolute value at most [2^60], one of them at least [2^-60]. *)
Definition moderate (v : Vec2D) : bool :=
  vec_within two_p60 v &&
  (leb two_m60 (abs (m_x v)) || leb two_m60 (abs (m_y v))).

(** [a] is 1 within the tolerance, compared the way [operator==]
    compares a component. *)
Definition approx_one (a : float) : bool :=
  gtb MAX_FLOAT_TOLERANCE (abs (sub a one)).

(** Two vectors on which the squares of [GetMagnitude] underflow and
    overflow: [(2^-77, 0)] and [(2^103, 0)]. *)
Definition vec_tiny : Vec2D := mkVec2D (S754_finite false 8388608 (-100)) zero.
Definition vec_huge : Vec2D := mkVec2D (S754_finite false 8388608 80) zero.

(** The binary32 values nearest to [pi / 2] and to [pi] (see
    [pio2_f_nearest]) *)
Definition pio2_f : float := S754_finite false 13176795 (-23).
Definition pi_f : float := S754_finite false 13176795 (-22).

(** Half of the field of view of [cam0] *)
Definition half_fov0 : float := S754_finite false 13176784 (-24).

(** [dot / distanceToTarget] for the targets [(50, 50)] and
    [(50, 50.1)] of [main], and the binary32 values nearest to their
    arc cosines *)
Definition ratio_edge : float := S754_finite false 11863283 (-24).
Definition ratio_inside : float := S754_finite false 11875128 (-24).
Definition angle_edge : float := S754_finite false 13176795 (-24).
Definition angle_inside : float := S754_finite false 13160035 (-24).

(** An [acosf] that is right on the two ratios *)
Definition acosf_main (x : float) : float :=
  if eqb x ratio_edge then angle_edge else angle_inside.

(** An [acosf] that is right on zero *)
Definition acosf_zero (x : float) : float := pio2_f.

(** [std::isnan] *)
Definition is_nan (x : float) : bool :=
  match x with
  | S754_nan => true
  | _ => false
  end.

(** [std::signbit] *)
Definition signbit (x : float) : bool :=
  match x with
  | S754_zero s | S754_infinity s | S754_finite s _ _ => s
  | S754_nan => false
  end.

(** Equal, or two zeros that may differ in sign *)
Definition same_or_zeros (a b : float) : Prop :=
  a = b \/ (is_zero a = true /\ is_zero b = true).

(** A finite float as a multiple of [2^-149], the spacing of the
    smallest binary32 numbers *)
Definition scaled (f : float) : Z :=
  match f with
  | S754_finite s m e => cond_Zopp s (Z.pos m * 2 ^ (e + 149))
  | _ => 0
  end.

(** The orientation and the target [(1, 4)] *)
Definition vec_1_4 : Vec2D := mkVec2D one (of_Z 4).



(** An [acosf] that is right on the five arguments [main] gives it *)
Definition acosf_table (x : float) : float :=
  if eqb x one then zero
  else if eqb x (of_Z (-1)) then pi_f
  else if eqb x zero then pio2_f
  else acosf_main x.

(** ** The real number a float stands for *)

Section RealSemantics.

Local Open Scope R_scope.

Definition bpow (e : Z) : R := powerRZ 2 e.

(** Zeros, infinities and NaN are sent to 0; the theorems that use
    [SF2R] say which of them they exclude. *)
Definition SF2R (x : float) : R :=
  match x with
  | S754_finite s m e => IZR (cond_Zopp s (Z.pos m)) * bpow e
  | _ => 0
  end.

Definition sgnR (s : bool) (z : R) : R := if s then - z else z.

(** [r] is a finite float within one unit in the last place of the real
    [v]: relative error at most [2^-23], or absolute error at most
    [2^-149] in the subnormal range.  (Rounding to nearest achieves half
    of that; the coarser bound is all the theorems below need.) *)
Definition rounded (v : R) (r : float) : Prop :=
  valid r = true /\ is_finite r = true /\
  Rabs (SF2R r - v) <= bpow (-23) * Rabs v + bpow (-149).

(** The result [r] of an operation whose exact value is [v]: an
    overflow, or a rounding of [v]. *)
Definition round_result (v : R) (r : float) : Prop :=
  valid r = true /\
  ((is_finite r = false /\ bpow 127 <= Rabs v) \/ rounded v r).

Definition Rcmp (c : comparison) (a b : R) : Prop :=
  match c with
  | Lt => a < b
  | Eq => a = b
  | Gt => b < a
  end.

(** What the theorems on the camera of [main] need from [acosf] at an
    argument [x]: a finite result within [2^-22] of the arc cosine,
    that is four units in the last place for a result in [0.5, 1). *)
Definition acosf_accurate (acosf : float -> float) (x : float) : Prop :=
  valid (acosf x) = true /\ is_finite (acosf x) = true /\
  Rabs (SF2R (acosf x) - acos (SF2R x)) <= bpow (-22).

(** The Taylor polynomials of the cosine of degree 10 and 12 *)
Definition cos_lo (a : R) : R :=
  1 - a ^ 2 / 2 + a ^ 4 / 24 - a ^ 6 / 720 + a ^ 8 / 40320
  - a ^ 10 / 3628800.

Definition cos_hi (a : R) : R := cos_lo a + a ^ 12 / 479001600.


End RealSemantics.

(** ** The literals are the binary32 values a compiler produces *)

Lemma PI_F_bits : PI_F = S754_finite false 13176784 (-22).
Proof. reflexivity. Qed.

Lemma MAX_FLOAT_TOLERANCE_bits :
  MAX_FLOAT_TOLERANCE = S754_finite false 13743895 (-37).
Proof. reflexivity. Qed.

Lemma FLT_MAX_bits : FLT_MAX = S754_finite false 16777215 104.
Proof. reflexivity. Qed.

Lemma one_bits : one = S754_finite false 8388608 (-23).
Proof. reflexivity. Qed.

Lemma two_bits : two = S754_finite false 8388608 (-22).
Proof. reflexivity. Qed.

(** [50.1f] is [0x42486666], [1.01f] is [0x3F8147AE], [PI_F / 2.0f] is
    [0x3FC90FD0], and [cam0] is the camera they give. *)
Lemma literal_50_1_bits : of_dec 501 10 = S754_finite false 13133414 (-18).
Proof. reflexivity. Qed.

Lemma literal_1_01_bits : of_dec 101 100 = S754_finite false 8472494 (-23).
Proof. reflexivity. Qed.

Lemma cam0_fields :
  cam0 = mkCamera2D (mkVec2D zero zero) (mkVec2D zero one)
                    (S754_finite false 13176784 (-23))
                    (S754_finite false 13107200 (-17)).
Proof. reflexivity. Qed.

(** ** What [main] prints for the vectors *)

Example dot_parallel : DotProduct vec1 vec1 = one.
Proof. reflexivity. Qed.

Example dot_orthogonal : DotProduct vec1 vec2 = zero.
Proof. reflexivity. Qed.

Example dot_opposite : DotProduct vec1 vec3 = of_Z (-1).
Proof. reflexivity. Qed.

Example dot_5_5 : DotProduct vec5 vec5 = of_Z 50.
Proof. reflexivity. Qed.

Example dot_5_42 : DotProduct vec5 vec6 = of_Z 150.
Proof. reflexivity. Qed.

Example magnitude_origin : GetMagnitude vec0 = zero.
Proof. reflexivity. Qed.

Example magnitude_unit : GetMagnitude vec1 = one.
Proof. reflexivity. Qed.

(** 7.0710678 and 43.68066 *)
Example magnitude_5_5 :
  GetMagnitude vec5 = S754_finite false 14829104 (-21) /\
  GetMagnitude vec6 = S754_finite false 11450623 (-18).
Proof. split; reflexivity. Qed.

Example normalized_unit : GetNormalized vec1 = vec1.
Proof. reflexivity. Qed.

Example minus_5_42 : vec_sub vec5 vec6 = mkVec2D (of_Z (-37)) (of_Z 17).
Proof. reflexivity. Qed.

Example plus_5_42 : vec_add vec5 vec6 = mkVec2D (of_Z 47) (of_Z (-7)).
Proof. reflexivity. Qed.

Example equal_same : vec_eq vec1 vec1 = true.
Proof. reflexivity. Qed.

Example equal_close : vec_eq vec1 vec16 = false.
Proof. reflexivity. Qed.

(** ** Comparisons *)

Lemma SFcompare_antisym (x y : float) :
  SFcompare y x = option_map CompOpp (SFcompare x y).
Proof.
  destruct x as [sx|sx| |sx mx ex], y as [sy|sy| |sy my ey]; simpl; trivial;
    try (destruct sx; trivial; destruct sy; reflexivity);
    try (destruct sy; reflexivity).
  rewrite (Z.compare_antisym ex ey).
  change (Pos.compare_cont Eq my mx) with (Pos.compare my mx).
  change (Pos.compare_cont Eq mx my) with (Pos.compare mx my).
  rewrite (Pos.compare_antisym mx my).
  destruct sx, sy; simpl; trivial;
    destruct (ex ?= ey); simpl; trivial; destruct (mx ?= my); reflexivity.
Qed.

Lemma gtb_not_leb (x y : float) : gtb x y = true -> leb x y = false.
Proof.
  unfold gtb, leb, SFltb, SFleb. rewrite (SFcompare_antisym y x).
  destruct (SFcompare y x) as [[ | | ]|]; simpl; congruence.
Qed.

Lemma eqb_leb (x y : float) : eqb x y = true -> leb x y = true.
Proof.
  unfold eqb, leb, SFeqb, SFleb.
  destruct (SFcompare x y) as [[ | | ]|]; congruence.
Qed.

Lemma sub_diag (x : float) : sub x x = zero \/ sub x x = S754_nan.
Proof.
  destruct x as [s|s| |s m e]; simpl.
  - left. destruct s; reflexivity.
  - right. destruct s; reflexivity.
  - now right.
  - left. unfold sub, SFsub. now rewrite Z.sub_diag.
Qed.

(** A zero or NaN difference in one component: what [CanSeeTarget]
    computes when the target is the camera's own position. *)
Lemma CanSeeTarget_self (acosf : float -> float) (c : Camera2D) :
  CanSeeTarget acosf c (m_position c) = false.
Proof.
  unfold CanSeeTarget.
  destruct (vec_eq (m_position c) (m_position c)) eqn:E; trivial.
  unfold vec_eq, vec_sub, GetMagnitude, GetX, GetY in *; simpl in *.
  destruct (sub_diag (m_x (m_position c))) as [Hx | Hx],
           (sub_diag (m_y (m_position c))) as [Hy | Hy];
    rewrite Hx, Hy in *;
    [ discriminate E | | | ];
    match goal with
    | |- context [leb ?d _] => change d with S754_nan
    end; reflexivity.
Qed.

(** ** The sign of a rounded result *)

Lemma binary_round_aux_sign (s : bool) (m e : Z) (l : location) :
  match binary_round_aux prec emax s m e l with
  | S754_zero s' | S754_infinity s' | S754_finite s' _ _ => s' = s
  | S754_nan => True
  end.
Proof.
  unfold binary_round_aux.
  destruct (shr_fexp prec emax m e l) as [mrs' e'].
  destruct (shr_fexp prec emax _ e' loc_Exact) as [mrs'' e''].
  destruct (shr_m mrs''); trivial.
  now destruct (e'' <=? emax - prec).
Qed.

Lemma half_nonpositive (f a : float) :
  leb f zero = true -> ltb a zero = false -> ltb a (div f two) = false.
Proof.
  intros Hf Ha.
  assert (Hh : match div f two with
               | S754_zero _ | S754_nan => True
               | S754_infinity s | S754_finite s _ _ => s = true
               end).
  { destruct f as [s|s| |s m e]; try destruct s; try discriminate Hf;
      try exact I; try reflexivity.
    unfold div, SFdiv. rewrite two_bits.
    destruct (SFdiv_core_binary prec emax (Z.pos m) e 8388608 (-22))
      as [[mz ez] lz].
    pose proof (binary_round_aux_sign (xorb true false) mz ez lz) as H.
    now destruct (binary_round_aux prec emax (xorb true false) mz ez lz). }
  destruct (div f two) as [s|s| |s m e]; try subst s;
    destruct a as [sa|sa| |sa ma ea]; try destruct sa;
    try discriminate Ha; reflexivity.
Qed.

(** * Floating-point arithmetic and the real numbers *)

(** ** Powers of two and digits *)

Section PowersOfTwo.

Local Open Scope R_scope.

Lemma bpow_gt_0 (e : Z) : 0 < bpow e.
Proof. apply powerRZ_lt; lra. Qed.

Lemma bpow_plus (a b : Z) : bpow (a + b) = bpow a * bpow b.
Proof. apply powerRZ_add; lra. Qed.

Lemma bpow_IZR (n : Z) : (0 <= n)%Z -> bpow n = IZR (2 ^ n).
Proof.
  intros Hn. unfold bpow.
  rewrite <- (Z2Nat.id n Hn) at 1. rewrite <- pow_powerRZ.
  rewrite pow_IZR. now rewrite Z2Nat.id.
Qed.

Lemma bpow_opp (n : Z) : bpow (- n) = / bpow n.
Proof. apply powerRZ_neg'. Qed.

Lemma bpow_le (a b : Z) : (a <= b)%Z -> bpow a <= bpow b.
Proof.
  intros H. replace b with (a + (b - a))%Z by lia.
  rewrite bpow_plus, (bpow_IZR (b - a)) by lia.
  assert (1 <= IZR (2 ^ (b - a))).
  { apply IZR_le. assert (0 < 2 ^ (b - a))%Z by (apply Z.pow_pos_nonneg; lia). lia. }
  pose proof (bpow_gt_0 a). nra.
Qed.

Lemma bpow_lt (a b : Z) : (a < b)%Z -> bpow a < bpow b.
Proof.
  intros H. replace b with (a + (b - a))%Z by lia.
  rewrite bpow_plus, (bpow_IZR (b - a)) by lia.
  assert (2 <= IZR (2 ^ (b - a))).
  { apply IZR_le. replace (b - a)%Z with (Z.succ (b - a - 1)) by lia.
    rewrite Z.pow_succ_r by lia.
    assert (0 < 2 ^ (b - a - 1))%Z by (apply Z.pow_pos_nonneg; lia). lia. }
  pose proof (bpow_gt_0 a). nra.
Qed.

Lemma bpow_succ (a : Z) : bpow (a + 1) = 2 * bpow a.
Proof. rewrite bpow_plus. unfold bpow at 2. simpl. lra. Qed.

(** The number of binary digits of a mantissa *)
Lemma digits2_pos_bounds (m : positive) :
  (2 ^ (Z.pos (digits2_pos m) - 1) <= Z.pos m < 2 ^ Z.pos (digits2_pos m))%Z.
Proof.
  induction m as [m IH|m IH|]; simpl digits2_pos.
  - rewrite Pos2Z.inj_succ.
    replace (Z.succ (Z.pos (digits2_pos m)) - 1)%Z
      with (Z.succ (Z.pos (digits2_pos m) - 1)) by lia.
    rewrite !Z.pow_succ_r by lia. lia.
  - rewrite Pos2Z.inj_succ.
    replace (Z.succ (Z.pos (digits2_pos m)) - 1)%Z
      with (Z.succ (Z.pos (digits2_pos m) - 1)) by lia.
    rewrite !Z.pow_succ_r by lia. lia.
  - simpl. lia.
Qed.

Lemma Zdigits2_bounds (m : Z) :
  (0 < m)%Z -> (2 ^ (Zdigits2 m - 1) <= m < 2 ^ Zdigits2 m)%Z.
Proof.
  destruct m as [|p|p]; try lia. intros _. apply digits2_pos_bounds.
Qed.

Lemma Zdigits2_nonneg (m : Z) : (0 <= Zdigits2 m)%Z.
Proof. destruct m; simpl; lia. Qed.

Lemma Zdigits2_unique (m n : Z) :
  (2 ^ (n - 1) <= m < 2 ^ n)%Z -> (0 < m)%Z -> Zdigits2 m = n.
Proof.
  intros H Hm. pose proof (Zdigits2_bounds m Hm) as Hd.
  pose proof (Zdigits2_nonneg m).
  assert (Hn : (0 < n)%Z).
  { destruct (Z.lt_ge_cases 0 n); trivial.
    rewrite (Z.pow_neg_r 2 (n-1)) in H by lia. 
    assert (n = 0 \/ n < 0)%Z as [-> | Hneg] by lia.
    - simpl in H. lia.
    - rewrite (Z.pow_neg_r 2 n) in H by lia. lia. }
  destruct (Z.lt_total (Zdigits2 m) n) as [Hlt | [Heq | Hgt]]; trivial.
  - assert (2 ^ Zdigits2 m <= 2 ^ (n - 1))%Z by (apply Z.pow_le_mono_r; lia). lia.
  - assert (2 ^ n <= 2 ^ (Zdigits2 m - 1))%Z by (apply Z.pow_le_mono_r; lia). lia.
Qed.

End PowersOfTwo.

(** ** Shifting and rounding a mantissa *)

Lemma fexp_eq (z : Z) : fexp prec emax z = Z.max (z - 24) (-149).
Proof. reflexivity. Qed.

Lemma shr_m_of_loc (m : Z) (l : location) : shr_m (shr_record_of_loc m l) = m.
Proof. now destruct l as [|[ | | ]]. Qed.

Lemma loc_of_shr_of_loc (m : Z) (l : location) :
  loc_of_shr_record (shr_record_of_loc m l) = l.
Proof. now destruct l as [|[ | | ]]. Qed.

Lemma shr_1_m (mrs : shr_record) :
  0 <= shr_m mrs -> shr_m (shr_1 mrs) = shr_m mrs / 2.
Proof.
  destruct mrs as [m r s]; simpl.
  destruct m as [|[p|p|]|p]; simpl; intros H; try lia; try reflexivity.
  - apply Z.div_unique with (r := 1); lia.
  - apply Z.div_unique with (r := 0); lia.
Qed.

Lemma iter_pos_shr_m (p : positive) :
  forall mrs : shr_record,
    0 <= shr_m mrs ->
    shr_m (iter_pos shr_1 p mrs) = shr_m mrs / 2 ^ Z.pos p.
Proof.
  induction p as [p IH|p IH|]; intros mrs H; simpl iter_pos.
  - assert (H1 : 0 <= shr_m (shr_1 mrs))
      by (rewrite shr_1_m by trivial; apply Z.div_pos; lia).
    assert (H2 : 0 <= shr_m (iter_pos shr_1 p (shr_1 mrs)))
      by (rewrite IH by trivial; apply Z.div_pos; lia).
    rewrite IH, IH, shr_1_m by trivial.
    assert (0 < 2 ^ Z.pos p) by (apply Z.pow_pos_nonneg; lia).
    assert (Hp : 2 ^ Z.pos p~1 = 2 * 2 ^ Z.pos p * 2 ^ Z.pos p).
    { rewrite <- Z.mul_assoc, <- Z.pow_add_r, <- Z.pow_succ_r by lia.
      f_equal. lia. }
    rewrite !Z.div_div, Hp by lia. f_equal. lia.
  - assert (H2 : 0 <= shr_m (iter_pos shr_1 p mrs))
      by (rewrite IH by trivial; apply Z.div_pos; lia).
    rewrite IH, IH by trivial.
    assert (0 < 2 ^ Z.pos p) by (apply Z.pow_pos_nonneg; lia).
    assert (Hp : 2 ^ Z.pos p~0 = 2 ^ Z.pos p * 2 ^ Z.pos p).
    { rewrite <- Z.pow_add_r by lia. f_equal. lia. }
    rewrite !Z.div_div, Hp by lia. reflexivity.
  - rewrite shr_1_m by trivial. reflexivity.
Qed.

Lemma shr_fexp_spec (m e : Z) (l : location) :
  0 <= m -> e <= fexp prec emax (Zdigits2 m + e) ->
  let e1 := fexp prec emax (Zdigits2 m + e) in
  shr_m (fst (shr_fexp prec emax m e l)) = m / 2 ^ (e1 - e) /\
  snd (shr_fexp prec emax m e l) = e1 /\
  (e1 = e -> loc_of_shr_record (fst (shr_fexp prec emax m e l)) = l).
Proof.
  intros Hm Hk e1. unfold shr_fexp. fold e1.
  destruct (e1 - e) as [|p|p] eqn:E; try lia; unfold shr; simpl fst; simpl snd.
  - rewrite shr_m_of_loc, loc_of_shr_of_loc. simpl. rewrite Z.div_1_r.
    repeat split; trivial. lia.
  - rewrite iter_pos_shr_m by (rewrite shr_m_of_loc; trivial).
    rewrite shr_m_of_loc. repeat split; lia.
Qed.

Lemma round_nearest_even_range (m : Z) (l : location) :
  m <= round_nearest_even m l <= m + 1 /\
  (l = loc_Exact -> round_nearest_even m l = m).
Proof.
  destruct l as [|[ | | ]]; simpl; try destruct (Z.even m); split; try lia;
    intros; trivial; discriminate.
Qed.

(** The outcome of [binary_round_aux] on a mantissa that has at least as
    many digits as its exponent allows. *)
Lemma binary_round_aux_Z (s : bool) (m e : Z) (l : location) :
  0 <= m -> e <= fexp prec emax (Zdigits2 m + e) ->
  let e1 := fexp prec emax (Zdigits2 m + e) in
  let m1 := m / 2 ^ (e1 - e) in
  let r := binary_round_aux prec emax s m e l in
  exists m2 : Z,
    m1 <= m2 <= m1 + 1 /\
    (l = loc_Exact -> e1 = e -> m2 = m) /\
    ((m2 = 0 /\ r = S754_zero s) \/
     (exists (m3 : positive) (e3 : Z),
         m2 = Z.pos m3 * 2 ^ (e3 - e1) /\ e1 <= e3 <= e1 + 1 /\
         canonical_mantissa prec emax m3 e3 = true /\
         (-149 < e3 -> 2 ^ 23 <= Z.pos m3) /\
         r = if e3 <=? emax - prec then S754_finite s m3 e3
             else S754_infinity s)).
Proof.
  intros Hm Hk e1 m1 r.
  destruct (shr_fexp_spec m e l Hm Hk) as (Hm1 & He1 & Hl1).
  fold e1 in Hm1, He1, Hl1. fold m1 in Hm1.
  subst r. unfold binary_round_aux.
  destruct (shr_fexp prec emax m e l) as [mrs' e'] eqn:E1.
  simpl in Hm1, He1, Hl1. subst e'.
  set (m2 := round_nearest_even (shr_m mrs') (loc_of_shr_record mrs')).
  destruct (round_nearest_even_range (shr_m mrs') (loc_of_shr_record mrs'))
    as [Hr Hrx].
  fold m2 in Hr, Hrx. rewrite Hm1 in Hr.
  assert (Hpk : 0 < 2 ^ (e1 - e)) by (apply Z.pow_pos_nonneg; lia).
  assert (Hm1ge : 0 <= m1) by (apply Z.div_pos; lia).
  assert (Hd : 0 < m -> 2 ^ (Zdigits2 m - 1) <= m < 2 ^ Zdigits2 m)
    by apply Zdigits2_bounds.
  pose proof (Zdigits2_nonneg m) as Hdn.
  assert (He1ge : -149 <= e1) by (unfold e1; rewrite fexp_eq; lia).
  (* the shifted mantissa has at most 24 digits *)
  assert (Hm1lt : m1 < 2 ^ 24).
  { apply Z.div_lt_upper_bound; trivial.
    destruct (Z.eq_dec m 0) as [-> | Hne]; [lia|].
    assert (2 ^ Zdigits2 m <= 2 ^ (24 + (e1 - e))).
    { apply Z.pow_le_mono_r; [lia|]. unfold e1. rewrite fexp_eq. lia. }
    rewrite Z.pow_add_r in H by lia. lia. }
  assert (Hm1norm : -149 < e1 -> 2 ^ 23 <= m1).
  { intros Hn. apply Z.div_le_lower_bound; trivial.
    assert (Hmpos : 0 < m).
    { destruct (Z.eq_dec m 0) as [-> | Hne]; [|lia].
      unfold e1 in *. rewrite fexp_eq in *. simpl Zdigits2 in *. lia. }
    assert (He : e1 - e = Zdigits2 m - 24)
      by (unfold e1 in *; rewrite fexp_eq in *; lia).
    rewrite He. rewrite <- Z.pow_add_r by lia.
    replace (Zdigits2 m - 24 + 23) with (Zdigits2 m - 1) by lia. lia. }
  exists m2. split; [lia|]. split.
  { intros -> He. rewrite Hrx by (apply Hl1; trivial).
    rewrite Hm1. unfold m1. rewrite He, Z.sub_diag. apply Z.div_1_r. }
  destruct (Z.eq_dec m2 0) as [Hz | Hnz].
  { left. split; trivial.
    unfold shr_fexp. rewrite Hz. simpl Zdigits2.
    replace (fexp prec emax (0 + e1) - e1) with 0
      by (rewrite fexp_eq; lia).
    reflexivity. }
  right.
  assert (Hm2pos : 0 < m2) by lia.
  pose proof (Zdigits2_bounds m2 Hm2pos) as Hd2.
  destruct (Z.eq_dec m2 (2 ^ 24)) as [Hov | Hnov].
  - (* the rounded mantissa needs one more bit *)
    exists (8388608%positive), (e1 + 1).
    replace (e1 + 1 - e1) with 1 by lia.
    split; [rewrite Hov; reflexivity|]. split; [lia|].
    split; [unfold canonical_mantissa; rewrite fexp_eq; simpl digits2_pos;
            apply Z.eqb_eq; lia|].
    split; [intros _; simpl; lia|].
    unfold shr_fexp. rewrite Hov.
    replace (fexp prec emax (Zdigits2 (2 ^ 24) + e1) - e1) with 1
      by (rewrite fexp_eq; simpl Zdigits2; lia).
    reflexivity.
  - destruct m2 as [|p2|p2]; try lia.
    exists p2, e1. rewrite Z.sub_diag, Z.mul_1_r.
    split; trivial. split; [lia|].
    assert (Hd24 : Zdigits2 (Z.pos p2) <= 24).
    { destruct (Z.le_gt_cases (Zdigits2 (Z.pos p2)) 24); trivial.
      assert (2 ^ 24 <= 2 ^ (Zdigits2 (Z.pos p2) - 1))
        by (apply Z.pow_le_mono_r; lia).
      lia. }
    assert (Hdnorm : -149 < e1 -> Zdigits2 (Z.pos p2) = 24).
    { intros Hn. apply Zdigits2_unique; [|lia].
      specialize (Hm1norm Hn). simpl Z.sub. lia. }
    assert (Hcan : fexp prec emax (Zdigits2 (Z.pos p2) + e1) = e1).
    { rewrite fexp_eq. destruct (Z.eq_dec e1 (-149)); [lia|].
      rewrite Hdnorm by lia. lia. }
    split; [unfold canonical_mantissa; apply Z.eqb_eq; exact Hcan|].
    split; [intros Hn; specialize (Hm1norm Hn); lia|].
    unfold shr_fexp. rewrite Hcan, Z.sub_diag. reflexivity.
Qed.

Section RoundingReal.

Local Open Scope R_scope.

Lemma bpow_shift (e k : Z) : (0 <= k)%Z -> bpow (e + k) = bpow e * IZR (2 ^ k).
Proof. intros H. now rewrite bpow_plus, (bpow_IZR k). Qed.

Lemma SF2R_finite (s : bool) (m : positive) (e : Z) :
  SF2R (S754_finite s m e) = sgnR s (IZR (Z.pos m) * bpow e).
Proof.
  unfold SF2R, sgnR. destruct s; simpl cond_Zopp; trivial.
  rewrite <- Pos2Z.opp_pos, opp_IZR. lra.
Qed.

(** The same outcome in real numbers: an overflow, or a float whose
    distance to the rounded value [v] is at most the weight of its last
    bit. *)
Lemma binary_round_aux_R (s : bool) (m e : Z) (l : location) (v : R) :
  (0 <= m)%Z -> (e <= fexp prec emax (Zdigits2 m + e))%Z ->
  IZR m * bpow e <= v <= IZR (m + 1) * bpow e ->
  let r := binary_round_aux prec emax s m e l in
  valid r = true /\
  ((r = S754_infinity s /\ bpow 127 <= v) \/
   (is_finite r = true /\
    exists z : R,
      0 <= z /\ SF2R r = sgnR s z /\
      Rabs (z - v) <= bpow (fexp prec emax (Zdigits2 m + e)) /\
      (l = loc_Exact -> fexp prec emax (Zdigits2 m + e) = e ->
       z = IZR m * bpow e))).
Proof.
  intros Hm Hk Hv r.
  destruct (binary_round_aux_Z s m e l Hm Hk) as (m2 & Hm2 & Hex & Hr).
  fold r in Hr.
  set (e1 := fexp prec emax (Zdigits2 m + e)) in *.
  set (k := (e1 - e)%Z) in *.
  assert (Hk0 : (0 <= k)%Z) by (unfold k; lia).
  assert (Hpk : (0 < 2 ^ k)%Z) by (apply Z.pow_pos_nonneg; lia).
  assert (He1 : bpow e1 = bpow e * IZR (2 ^ k)).
  { rewrite <- bpow_shift by trivial. f_equal. unfold k. lia. }
  pose proof (bpow_gt_0 e) as Hbe. pose proof (bpow_gt_0 e1) as Hbe1.
  set (m1 := (m / 2 ^ k)%Z) in *.
  assert (Hdiv : (m1 * 2 ^ k <= m /\ m + 1 <= (m1 + 1) * 2 ^ k)%Z).
  { pose proof (Z.div_mod m (2 ^ k) ltac:(lia)) as Hdm.
    pose proof (Z.mod_pos_bound m (2 ^ k) Hpk). fold m1 in Hdm. nia. }
  assert (Hlo : IZR m1 * bpow e1 <= v).
  { apply Rle_trans with (IZR m * bpow e); [|lra].
    rewrite He1. replace (IZR m1 * (bpow e * IZR (2 ^ k)))
      with (IZR (m1 * 2 ^ k) * bpow e) by (rewrite mult_IZR; ring).
    apply Rmult_le_compat_r; [lra|]. apply IZR_le. lia. }
  assert (Hhi : v <= IZR (m1 + 1) * bpow e1).
  { apply Rle_trans with (IZR (m + 1) * bpow e); [lra|].
    rewrite He1. replace (IZR (m1 + 1) * (bpow e * IZR (2 ^ k)))
      with (IZR ((m1 + 1) * 2 ^ k) * bpow e) by (rewrite mult_IZR; ring).
    apply Rmult_le_compat_r; [lra|]. apply IZR_le. lia. }
  assert (Hz : Rabs (IZR m2 * bpow e1 - v) <= bpow e1).
  { assert (IZR m1 <= IZR m2 <= IZR (m1 + 1)) by (split; apply IZR_le; lia).
    rewrite plus_IZR in *. apply Rabs_le. nra. }
  assert (Hm1 : (0 <= m1)%Z) by (apply Z.div_pos; lia).
  destruct Hr as [[Hz2 ->] | (m3 & e3 & Hm3 & He3 & Hcan & Hnorm & ->)].
  { split; trivial. right. split; trivial.
    exists 0. rewrite Hz2 in *. simpl SF2R. unfold sgnR.
    repeat split; try lra.
    - now destruct s; lra.
    - replace (0 - v) with (0 * bpow e1 - v) by ring. exact Hz.
    - intros Hl He. rewrite <- (Hex Hl He). simpl. ring. }
  assert (Hval : IZR (Z.pos m3) * bpow e3 = IZR m2 * bpow e1).
  { replace e3 with (e1 + (e3 - e1))%Z at 1 by lia.
    rewrite bpow_shift, Hm3, mult_IZR by lia. ring. }
  destruct (e3 <=? emax - prec)%Z eqn:Ebound.
  - split; [unfold valid; simpl; unfold bounded; now rewrite Hcan, Ebound|].
    right. split; trivial.
    exists (IZR m2 * bpow e1). rewrite SF2R_finite, Hval.
    repeat split; trivial.
    + apply Rmult_le_pos; [apply IZR_le; lia | lra].
    + intros Hl He. rewrite (Hex Hl He). now rewrite He.
  - split; trivial. left. split; trivial.
    apply Z.leb_gt in Ebound. change (emax - prec)%Z with 104%Z in Ebound.
    assert (H23 : (2 ^ 23 <= Z.pos m3)%Z) by (apply Hnorm; lia).
    assert (IZR (2 ^ 23) <= IZR (Z.pos m3)) by (apply IZR_le; trivial).
    assert (Hb : bpow 105 <= bpow e3) by (apply bpow_le; lia).
    assert (H127 : bpow 127 * 2 = IZR (2 ^ 23) * bpow 105).
    { rewrite (bpow_IZR 127) by lia. rewrite (bpow_IZR 105) by lia.
      rewrite <- !mult_IZR. reflexivity. }
    assert (Hm2ge : (2 <= m2)%Z).
    { rewrite Hm3. assert (0 < 2 ^ (e3 - e1))%Z by (apply Z.pow_pos_nonneg; lia).
      change (2 ^ 23)%Z with 8388608%Z in H23. nia. }
    assert (IZR m2 <= 2 * IZR m1).
    { rewrite <- mult_IZR. apply IZR_le. lia. }
    pose proof (bpow_gt_0 105). pose proof (bpow_gt_0 127).
    assert (IZR (2 ^ 23) * bpow 105 <= IZR (Z.pos m3) * bpow e3).
    { apply Rmult_le_compat; try lra; apply IZR_le; lia. }
    nra.
Qed.

(** The error of one rounding, relative to the rounded value, with the
    absolute term of the subnormal range. *)
Lemma ulp_le (m e : Z) (v : R) :
  (0 <= m)%Z -> (e <= fexp prec emax (Zdigits2 m + e))%Z ->
  IZR m * bpow e <= v ->
  bpow (fexp prec emax (Zdigits2 m + e)) <= bpow (-23) * v + bpow (-149).
Proof.
  intros Hm Hk Hv. rewrite fexp_eq in *.
  pose proof (bpow_gt_0 (-23)). pose proof (bpow_gt_0 (-149)).
  pose proof (bpow_gt_0 e).
  assert (0 <= v).
  { apply Rle_trans with (IZR m * bpow e); trivial.
    apply Rmult_le_pos; [apply IZR_le; lia | lra]. }
  destruct (Z.max_spec (Zdigits2 m + e - 24) (-149)) as [[Hc Hx] | [Hc Hx]];
    rewrite Hx in *.
  - nra.
  - assert (Hmpos : (0 < m)%Z).
    { destruct (Z.eq_dec m 0) as [-> | Hne]; [|lia].
      change (Zdigits2 0) with 0%Z in *. lia. }
    destruct (Zdigits2_bounds m Hmpos) as [Hd _].
    replace (Zdigits2 m + e - 24)%Z with ((-23) + ((Zdigits2 m - 1) + e))%Z by lia.
    rewrite !bpow_plus, (bpow_IZR (Zdigits2 m - 1)) by lia.
    assert (IZR (2 ^ (Zdigits2 m - 1)) <= IZR m) by (apply IZR_le; trivial).
    assert (0 < IZR (2 ^ (Zdigits2 m - 1))).
    { apply IZR_lt. apply Z.pow_pos_nonneg; lia. }
    assert (IZR (2 ^ (Zdigits2 m - 1)) * bpow e <= v) by nra.
    nra.
Qed.

End RoundingReal.

(** ** The five operations *)

Lemma canonical_facts (m : positive) (e : Z) :
  canonical_mantissa prec emax m e = true ->
  Zdigits2 (Z.pos m) <= 24 /\ -149 <= e /\
  (-149 < e -> Zdigits2 (Z.pos m) = 24).
Proof.
  unfold canonical_mantissa. rewrite fexp_eq. intros H.
  apply Z.eqb_eq in H. simpl Zdigits2. lia.
Qed.

Lemma valid_finite_facts (s : bool) (m : positive) (e : Z) :
  valid (S754_finite s m e) = true ->
  Zdigits2 (Z.pos m) <= 24 /\ -149 <= e <= 104 /\
  (-149 < e -> Zdigits2 (Z.pos m) = 24).
Proof.
  unfold valid, valid_binary, bounded. intros H.
  apply andb_true_iff in H. destruct H as [H1 H2].
  apply canonical_facts in H1. apply Z.leb_le in H2.
  change (emax - prec) with 104 in H2. lia.
Qed.

Lemma Zdigits2_mul_ge (a b : positive) :
  Zdigits2 (Z.pos a) + Zdigits2 (Z.pos b) - 1 <= Zdigits2 (Z.pos (a * b)).
Proof.
  pose proof (Zdigits2_bounds (Z.pos a) ltac:(lia)) as Ha.
  pose proof (Zdigits2_bounds (Z.pos b) ltac:(lia)) as Hb.
  pose proof (Zdigits2_bounds (Z.pos (a * b)) ltac:(lia)) as Hab.
  set (da := Zdigits2 (Z.pos a)) in *. set (db := Zdigits2 (Z.pos b)) in *.
  set (d := Zdigits2 (Z.pos (a * b))) in *.
  assert (1 <= da) by (unfold da; simpl; lia).
  assert (1 <= db) by (unfold db; simpl; lia).
  assert (1 <= d) by (unfold d; simpl; lia).
  destruct (Z.le_gt_cases (da + db - 1) d) as [|Hlt]; trivial. exfalso.
  assert (H2 : 2 ^ d <= 2 ^ (da - 1 + (db - 1))) by (apply Z.pow_le_mono_r; lia).
  rewrite Z.pow_add_r in H2 by lia.
  rewrite Pos2Z.inj_mul in Hab.
  assert (0 < 2 ^ (da - 1)) by (apply Z.pow_pos_nonneg; lia).
  assert (0 < 2 ^ (db - 1)) by (apply Z.pow_pos_nonneg; lia).
  nia.
Qed.

Section Multiplication.

Local Open Scope R_scope.

Lemma sgnR_abs (s : bool) (z : R) : 0 <= z -> Rabs (sgnR s z) = z.
Proof.
  intros H. unfold sgnR. destruct s.
  - rewrite Rabs_Ropp. now apply Rabs_pos_eq.
  - now apply Rabs_pos_eq.
Qed.

Lemma sgnR_minus (s : bool) (a b : R) : sgnR s a - sgnR s b = sgnR s (a - b).
Proof. unfold sgnR. destruct s; ring. Qed.

Lemma Rabs_sgnR (s : bool) (z : R) : Rabs (sgnR s z) = Rabs z.
Proof. unfold sgnR. destruct s; trivial. apply Rabs_Ropp. Qed.

Lemma sgnR_xorb (s1 s2 : bool) (a b : R) :
  sgnR s1 a * sgnR s2 b = sgnR (xorb s1 s2) (a * b).
Proof. unfold sgnR. destruct s1, s2; simpl; ring. Qed.

Lemma rounded_zero (s : bool) : rounded 0 (S754_zero s).
Proof.
  repeat split. simpl. rewrite Rminus_0_r, Rabs_R0.
  pose proof (bpow_gt_0 (-149)). lra.
Qed.

Lemma rounded_exact (x : float) :
  valid x = true -> is_finite x = true -> rounded (SF2R x) x.
Proof.
  intros Hv Hf. repeat split; trivial.
  rewrite Rminus_diag, Rabs_R0.
  pose proof (bpow_gt_0 (-149)). pose proof (bpow_gt_0 (-23)).
  pose proof (Rabs_pos (SF2R x)). nra.
Qed.

Lemma round_result_small (v : R) (r : float) :
  round_result v r -> Rabs v < bpow 127 -> rounded v r.
Proof. intros [_ [[_ H] | H]] Hv; [lra | exact H]. Qed.

Lemma round_result_finite (v : R) (r : float) :
  round_result v r -> is_finite r = true -> rounded v r.
Proof. intros [_ [[H _] | H]] Hf; [congruence | exact H]. Qed.

Lemma round_result_valid (v : R) (r : float) :
  round_result v r -> valid r = true.
Proof. now intros [H _]. Qed.

Lemma rounded_result (v : R) (r : float) : rounded v r -> round_result v r.
Proof. intros H. split; [apply H | now right]. Qed.

(** From the outcome of [binary_round_aux] to [round_result] *)
Lemma round_aux_result (s : bool) (m e : Z) (l : location) (v : R) :
  (0 <= m)%Z -> (e <= fexp prec emax (Zdigits2 m + e))%Z ->
  IZR m * bpow e <= v <= IZR (m + 1) * bpow e ->
  round_result (sgnR s v) (binary_round_aux prec emax s m e l).
Proof.
  intros Hm Hk Hv.
  destruct (binary_round_aux_R s m e l v Hm Hk Hv) as [Hval Hr].
  split; trivial.
  assert (0 <= v).
  { apply Rle_trans with (IZR m * bpow e); [|lra].
    apply Rmult_le_pos; [apply IZR_le; lia | pose proof (bpow_gt_0 e); lra]. }
  destruct Hr as [[-> Hinf] | (Hfin & z & Hz & Hs & Herr & _)].
  - left. split; trivial. now rewrite Rabs_sgnR, Rabs_pos_eq.
  - right. repeat split; trivial.
    rewrite Hs, sgnR_minus, !Rabs_sgnR, (Rabs_pos_eq v) by trivial.
    apply Rle_trans with (1 := Herr). apply ulp_le; trivial. lra.
Qed.

(** [x * y] *)
Lemma mul_spec (x y : float) :
  valid x = true -> valid y = true ->
  is_finite x = true -> is_finite y = true ->
  round_result (SF2R x * SF2R y) (mul x y).
Proof.
  intros Hx Hy Fx Fy.
  destruct x as [sx|sx| |sx mx ex]; try discriminate Fx;
    destruct y as [sy|sy| |sy my ey]; try discriminate Fy;
    try (simpl SF2R; rewrite ?Rmult_0_l, ?Rmult_0_r;
         apply rounded_result, rounded_zero).
  destruct (valid_finite_facts _ _ _ Hx) as (Hdx & Hex & Hnx).
  destruct (valid_finite_facts _ _ _ Hy) as (Hdy & Hey & Hny).
  pose proof (Zdigits2_mul_ge mx my) as Hd.
  assert (1 <= Zdigits2 (Z.pos mx))%Z by (simpl; lia).
  assert (1 <= Zdigits2 (Z.pos my))%Z by (simpl; lia).
  set (v := IZR (Z.pos (mx * my)) * bpow (ex + ey)).
  assert (Hxy : SF2R (S754_finite sx mx ex) * SF2R (S754_finite sy my ey)
                = sgnR (xorb sx sy) v).
  { rewrite !SF2R_finite, sgnR_xorb. unfold v.
    rewrite Pos2Z.inj_mul, mult_IZR, bpow_plus. f_equal. ring. }
  rewrite Hxy. apply round_aux_result.
  - lia.
  - rewrite fexp_eq. lia.
  - fold v. split; [lra|]. rewrite plus_IZR. fold v.
    pose proof (bpow_gt_0 (ex + ey)). unfold v. nra.
Qed.

End Multiplication.

Lemma iter_xO (p m : positive) :
  Z.pos (Pos.iter xO m p) = Z.pos m * 2 ^ Z.pos p.
Proof.
  induction p as [|p IH] using Pos.peano_ind.
  - simpl. lia.
  - rewrite Pos.iter_succ, Pos2Z.inj_xO, IH, Pos2Z.inj_succ,
      Z.pow_succ_r by lia. lia.
Qed.

Lemma shl_align_spec (m : positive) (e e' : Z) :
  let '(m', e'') := shl_align m e e' in
  e'' = Z.min e e' /\ Z.pos m' = Z.pos m * 2 ^ (e - e'').
Proof.
  unfold shl_align. destruct (e' - e) as [|p|p] eqn:E.
  - split; [lia|]. replace (e - e) with 0 by lia. simpl. lia.
  - split; [lia|]. replace (e - e) with 0 by lia. simpl. lia.
  - split; [lia|]. rewrite iter_xO. f_equal. f_equal. lia.
Qed.

Lemma Zdigits2_shift (m k : Z) :
  0 < m -> 0 <= k -> Zdigits2 (m * 2 ^ k) = Zdigits2 m + k.
Proof.
  intros Hm Hk. pose proof (Zdigits2_bounds m Hm) as [H1 H2].
  assert (0 < 2 ^ k) by (apply Z.pow_pos_nonneg; lia).
  assert (1 <= Zdigits2 m) by (destruct m; simpl; lia).
  apply Zdigits2_unique; [|nia].
  replace (Zdigits2 m + k - 1) with (Zdigits2 m - 1 + k) by lia.
  rewrite !Z.pow_add_r by lia. nia.
Qed.

Section Addition.

Local Open Scope R_scope.

Lemma binary_round_spec (s : bool) (m : positive) (e : Z) :
  round_result (sgnR s (IZR (Z.pos m) * bpow e))
               (binary_round prec emax s m e).
Proof.
  set (v := IZR (Z.pos m) * bpow e). unfold binary_round.
  pose proof (shl_align_spec m e (fexp prec emax (Z.pos (digits2_pos m) + e)))
    as Hs.
  destruct (shl_align m e (fexp prec emax (Z.pos (digits2_pos m) + e)))
    as [m' e'].
  destruct Hs as [He' Hm'].
  change (Z.pos (digits2_pos m)) with (Zdigits2 (Z.pos m)) in He'.
  assert (Hd : (Zdigits2 (Z.pos m') + e' = Zdigits2 (Z.pos m) + e)%Z).
  { rewrite Hm', Zdigits2_shift by lia. lia. }
  assert (Hv : IZR (Z.pos m') * bpow e' = v).
  { unfold v.
    assert (Hb : bpow e = bpow e' * IZR (2 ^ (e - e')))
      by (rewrite <- bpow_shift by lia; f_equal; lia).
    rewrite Hb, Hm', mult_IZR. ring. }
  apply round_aux_result.
  - lia.
  - rewrite Hd. lia.
  - rewrite Hv. split; [lra|]. rewrite plus_IZR.
    pose proof (bpow_gt_0 e'). rewrite <- Hv. nra.
Qed.

Lemma sgnR_true_IZR (m : positive) (e : Z) :
  IZR (Z.neg m) * bpow e = sgnR true (IZR (Z.pos m) * bpow e).
Proof. unfold sgnR. rewrite <- Pos2Z.opp_pos, opp_IZR. ring. Qed.

Lemma binary_normalize_spec (z e : Z) :
  round_result (IZR z * bpow e) (binary_normalize prec emax z e false).
Proof.
  destruct z as [|p|p]; unfold binary_normalize.
  - rewrite Rmult_0_l. apply rounded_result, rounded_zero.
  - apply (binary_round_spec false p e).
  - rewrite sgnR_true_IZR. apply (binary_round_spec true p e).
Qed.

Lemma aligned_value (s : bool) (m : positive) (e e' : Z) :
  (e' <= e)%Z ->
  IZR (cond_Zopp s (Z.pos (fst (shl_align m e e')))) * bpow e'
  = SF2R (S754_finite s m e).
Proof.
  intros H. pose proof (shl_align_spec m e e') as Hs.
  destruct (shl_align m e e') as [m' e'']. destruct Hs as [He Hm].
  simpl fst.
  rewrite Z.min_r in He by lia. subst e''.
  assert (Hb : bpow e = bpow e' * IZR (2 ^ (e - e')))
    by (rewrite <- bpow_shift by lia; f_equal; lia).
  change (IZR (cond_Zopp s (Z.pos m')) * bpow e')
    with (SF2R (S754_finite s m' e')).
  rewrite !SF2R_finite. f_equal. rewrite Hb, Hm, mult_IZR. ring.
Qed.

(** [x + y] *)
Lemma add_spec (x y : float) :
  valid x = true -> valid y = true ->
  is_finite x = true -> is_finite y = true ->
  round_result (SF2R x + SF2R y) (add x y).
Proof.
  intros Hx Hy Fx Fy.
  destruct x as [sx|sx| |sx mx ex]; try discriminate Fx;
    destruct y as [sy|sy| |sy my ey]; try discriminate Fy.
  - simpl SF2R. rewrite Rplus_0_r.
    destruct sx, sy; apply rounded_result, rounded_zero.
  - simpl (SF2R (S754_zero sx)). rewrite Rplus_0_l.
    now apply rounded_result, rounded_exact.
  - simpl (SF2R (S754_zero sy)). rewrite Rplus_0_r.
    now apply rounded_result, rounded_exact.
  - unfold add, SFadd.
    rewrite <- (aligned_value sx mx ex (Z.min ex ey)) by lia.
    rewrite <- (aligned_value sy my ey (Z.min ex ey)) by lia.
    rewrite <- Rmult_plus_distr_r, <- plus_IZR.
    apply binary_normalize_spec.
Qed.

(** [x - y] *)
Lemma sub_spec (x y : float) :
  valid x = true -> valid y = true ->
  is_finite x = true -> is_finite y = true ->
  round_result (SF2R x - SF2R y) (sub x y).
Proof.
  intros Hx Hy Fx Fy.
  destruct x as [sx|sx| |sx mx ex]; try discriminate Fx;
    destruct y as [sy|sy| |sy my ey]; try discriminate Fy.
  - simpl SF2R. rewrite Rminus_0_r.
    destruct sx, sy; apply rounded_result, rounded_zero.
  - assert (Hv : valid (S754_finite (negb sy) my ey) = true) by exact Hy.
    simpl (SF2R (S754_zero sx)).
    replace (0 - SF2R (S754_finite sy my ey))
      with (SF2R (S754_finite (negb sy) my ey)).
    + now apply rounded_result, rounded_exact.
    + rewrite !SF2R_finite. unfold sgnR. destruct sy; simpl; ring.
  - simpl (SF2R (S754_zero sy)). rewrite Rminus_0_r.
    now apply rounded_result, rounded_exact.
  - unfold sub, SFsub.
    rewrite <- (aligned_value sx mx ex (Z.min ex ey)) by lia.
    rewrite <- (aligned_value sy my ey (Z.min ex ey)) by lia.
    rewrite <- Rmult_minus_distr_r, <- minus_IZR.
    apply binary_normalize_spec.
Qed.

End Addition.

Lemma fexp_mono (a b : Z) : a <= b -> fexp prec emax a <= fexp prec emax b.
Proof. rewrite !fexp_eq. lia. Qed.

Lemma Zdigits2_ge (q n : Z) : 0 <= q -> (0 < n -> 2 ^ (n - 1) <= q) -> n <= Zdigits2 q.
Proof.
  intros Hq H. pose proof (Zdigits2_nonneg q).
  destruct (Z.le_gt_cases n 0) as [|Hn]; [lia|]. specialize (H Hn).
  assert (0 < 2 ^ (n - 1)) by (apply Z.pow_pos_nonneg; lia).
  pose proof (Zdigits2_bounds q ltac:(lia)) as [_ Hd].
  destruct (Z.le_gt_cases n (Zdigits2 q)); trivial.
  assert (2 ^ Zdigits2 q <= 2 ^ (n - 1)) by (apply Z.pow_le_mono_r; lia).
  lia.
Qed.

Lemma bpow_minus (a b : Z) : (bpow (a - b) = bpow a / bpow b)%R.
Proof.
  unfold Z.sub. rewrite bpow_plus, bpow_opp. reflexivity.
Qed.

Lemma div_core_spec (mx my : positive) (ex ey : Z) :
  let '(q, e', l) := SFdiv_core_binary prec emax (Z.pos mx) ex (Z.pos my) ey in
  let v := (IZR (Z.pos mx) * bpow ex / (IZR (Z.pos my) * bpow ey))%R in
  0 <= q /\ e' <= fexp prec emax (Zdigits2 q + e') /\
  (IZR q * bpow e' <= v <= IZR (q + 1) * bpow e')%R.
Proof.
  unfold SFdiv_core_binary.
  set (d1 := Zdigits2 (Z.pos mx)). set (d2 := Zdigits2 (Z.pos my)).
  set (e' := Z.min (fexp prec emax (d1 + ex - (d2 + ey))) (ex - ey)).
  set (s := ex - ey - e').
  assert (Hs : 0 <= s) by (unfold s, e'; lia).
  set (m' := match s with
             | 0 => Z.pos mx
             | Z.pos _ => Z.shiftl (Z.pos mx) s
             | Z.neg _ => 0
             end).
  assert (Hm' : m' = Z.pos mx * 2 ^ s).
  { unfold m'. destruct s as [|p|p]; try lia.
    apply Z.shiftl_mul_pow2. lia. }
  pose proof (Z_div_mod m' (Z.pos my) ltac:(lia)) as Hdiv.
  destruct (Z.div_eucl m' (Z.pos my)) as [q r]. destruct Hdiv as [Hqr Hr].
  assert (Hps : 0 < 2 ^ s) by (apply Z.pow_pos_nonneg; lia).
  assert (Hq : 0 <= q) by nia.
  split; trivial. split.
  - apply Z.le_trans with (fexp prec emax (d1 + ex - (d2 + ey)));
      [unfold e'; lia|].
    apply fexp_mono.
    assert (d1 + s - d2 <= Zdigits2 q); [|unfold s in *; lia].
    apply Zdigits2_ge; trivial. intros Hpos.
    pose proof (Zdigits2_bounds (Z.pos mx) ltac:(lia)) as [Hx1 _].
    pose proof (Zdigits2_bounds (Z.pos my) ltac:(lia)) as [_ Hy2].
    fold d1 in Hx1. fold d2 in Hy2.
    assert (1 <= d1) by (unfold d1; simpl; lia).
    assert (1 <= d2) by (unfold d2; simpl; lia).
    destruct (Z.le_gt_cases (2 ^ (d1 + s - d2 - 1)) q) as [|Hlt]; trivial.
    exfalso.
    assert (Hp : 2 ^ (d1 + s - d2 - 1) * 2 ^ d2 = 2 ^ (d1 - 1) * 2 ^ s).
    { rewrite <- !Z.pow_add_r by lia. f_equal. lia. }
    assert (0 < 2 ^ (d1 + s - d2 - 1)) by (apply Z.pow_pos_nonneg; lia).
    assert (0 < 2 ^ (d1 - 1)) by (apply Z.pow_pos_nonneg; lia).
    assert (q + 1 <= 2 ^ (d1 + s - d2 - 1)) by lia.
    assert (m' < Z.pos my * (q + 1)) by lia.
    assert (Z.pos my * (q + 1) <= Z.pos my * 2 ^ (d1 + s - d2 - 1)) by nia.
    assert (Z.pos my * 2 ^ (d1 + s - d2 - 1) <= 2 ^ d2 * 2 ^ (d1 + s - d2 - 1)) by nia.
    assert (2 ^ (d1 - 1) * 2 ^ s <= m')
      by (rewrite Hm'; apply Z.mul_le_mono_nonneg_r; lia).
    apply (Z.lt_irrefl m').
    eapply Z.lt_le_trans; [eassumption|].
    eapply Z.le_trans; [eassumption|].
    eapply Z.le_trans; [eassumption|].
    rewrite Z.mul_comm, Hp. assumption.
  - assert (Hv : (IZR (Z.pos mx) * bpow ex / (IZR (Z.pos my) * bpow ey)
                  = IZR m' / IZR (Z.pos my) * bpow e')%R).
    { assert (Hb : (bpow ex = bpow ey * (bpow e' * IZR (2 ^ s)))%R).
      { rewrite <- bpow_shift, <- bpow_plus by lia. f_equal. unfold s. lia. }
      rewrite Hb, Hm', mult_IZR. field.
      split; first [apply not_0_IZR; lia | apply Rgt_not_eq, bpow_gt_0]. }
    rewrite Hv.
    assert (Hmy : (0 < IZR (Z.pos my))%R) by (apply IZR_lt; lia).
    pose proof (bpow_gt_0 e') as Hbe.
    assert (Hlo : (IZR q <= IZR m' / IZR (Z.pos my))%R).
    { apply Rmult_le_reg_r with (IZR (Z.pos my)); trivial.
      unfold Rdiv. rewrite Rmult_assoc, Rinv_l, Rmult_1_r by lra.
      rewrite <- mult_IZR. apply IZR_le. nia. }
    assert (Hhi : (IZR m' / IZR (Z.pos my) <= IZR (q + 1))%R).
    { apply Rmult_le_reg_r with (IZR (Z.pos my)); trivial.
      unfold Rdiv. rewrite Rmult_assoc, Rinv_l, Rmult_1_r by lra.
      rewrite <- mult_IZR. apply IZR_le. nia. }
    split; apply Rmult_le_compat_r; lra.
Qed.

Section Division.

Local Open Scope R_scope.

Lemma sgnR_div (s1 s2 : bool) (a b : R) :
  0 < b -> sgnR s1 a / sgnR s2 b = sgnR (xorb s1 s2) (a / b).
Proof. intros H. unfold sgnR. destruct s1, s2; simpl; field; lra. Qed.

(** [x / y], for a divisor that is not zero *)
Lemma div_spec (x y : float) :
  valid x = true -> valid y = true ->
  is_finite x = true -> is_finite y = true -> SF2R y <> 0 ->
  round_result (SF2R x / SF2R y) (div x y).
Proof.
  intros Hx Hy Fx Fy Hy0.
  destruct y as [sy|sy| |sy my ey]; try discriminate Fy;
    [now simpl in Hy0|].
  destruct x as [sx|sx| |sx mx ex]; try discriminate Fx.
  - simpl (SF2R (S754_zero sx)).
    unfold Rdiv. rewrite Rmult_0_l. apply rounded_result, rounded_zero.
  - unfold div, SFdiv.
    pose proof (div_core_spec mx my ex ey) as Hc.
    destruct (SFdiv_core_binary prec emax (Z.pos mx) ex (Z.pos my) ey)
      as [[q e'] l].
    cbv zeta in Hc. destruct Hc as (Hq & Hk & Hv).
    assert (Hmy : 0 < IZR (Z.pos my) * bpow ey).
    { apply Rmult_lt_0_compat; [apply IZR_lt; lia | apply bpow_gt_0]. }
    rewrite !SF2R_finite, sgnR_div by trivial.
    now apply round_aux_result.
Qed.

End Division.

Lemma sqrt_core_spec (m : positive) (e : Z) (v : R) :
  (0 <= v)%R -> (v * v = IZR (Z.pos m) * bpow e)%R ->
  let '(q, e', l) := SFsqrt_core_binary prec emax (Z.pos m) e in
  0 <= q /\ e' <= fexp prec emax (Zdigits2 q + e') /\
  (IZR q * bpow e' <= v <= IZR (q + 1) * bpow e')%R.
Proof.
  intros Hv0 Hvv. unfold SFsqrt_core_binary.
  set (d := Zdigits2 (Z.pos m)).
  set (e' := Z.min (fexp prec emax (Z.div2 (d + e + 1))) (Z.div2 e)).
  set (s := e - 2 * e').
  assert (Hdiv2 : forall z, 2 * Z.div2 z <= z <= 2 * Z.div2 z + 1).
  { intros z. rewrite Z.div2_div.
    pose proof (Z.div_mod z 2 ltac:(lia)).
    pose proof (Z.mod_pos_bound z 2 ltac:(lia)). lia. }
  assert (Hs : 0 <= s) by (unfold s, e'; pose proof (Hdiv2 e); lia).
  set (m' := match s with
             | 0 => Z.pos m
             | Z.pos _ => Z.shiftl (Z.pos m) s
             | Z.neg _ => 0
             end).
  assert (Hm' : m' = Z.pos m * 2 ^ s).
  { unfold m'. destruct s as [|p|p]; try lia.
    apply Z.shiftl_mul_pow2. lia. }
  assert (Hps : 0 < 2 ^ s) by (apply Z.pow_pos_nonneg; lia).
  assert (Hm'pos : 0 < m') by nia.
  pose proof (Z.sqrtrem_spec m' ltac:(lia)) as Hsq.
  destruct (Z.sqrtrem m') as [q r]. destruct Hsq as [Hq Hr].
  assert (Hq0 : 0 <= q) by lia.
  split; trivial. split.
  - apply Z.le_trans with (fexp prec emax (Z.div2 (d + e + 1)));
      [unfold e'; lia|].
    apply fexp_mono.
    set (t := Z.div2 (d - 1 + s)).
    assert (Ht : t + 1 <= Zdigits2 q).
    { apply Zdigits2_ge; trivial. intros _.
      replace (t + 1 - 1) with t by lia.
      pose proof (Zdigits2_bounds (Z.pos m) ltac:(lia)) as [Hd1 _]. fold d in Hd1.
      assert (1 <= d) by (unfold d; simpl; lia).
      pose proof (Hdiv2 (d - 1 + s)) as Ht2. fold t in Ht2.
      assert (0 <= t) by lia.
      destruct (Z.le_gt_cases (2 ^ t) q) as [|Hlt]; trivial. exfalso.
      assert (Hpt : 0 < 2 ^ t) by (apply Z.pow_pos_nonneg; lia).
      assert (H2t : 2 ^ t * 2 ^ t <= 2 ^ (d - 1) * 2 ^ s).
      { rewrite <- !Z.pow_add_r by lia. apply Z.pow_le_mono_r; lia. }
      assert (2 ^ (d - 1) * 2 ^ s <= m')
        by (rewrite Hm'; apply Z.mul_le_mono_nonneg_r; lia).
      assert ((q + 1) * (q + 1) <= 2 ^ t * 2 ^ t) by nia.
      nia. }
    assert (Z.div2 (d + e + 1) <= t + 1 + e'); [|lia].
    pose proof (Hdiv2 (d + e + 1)). pose proof (Hdiv2 (d - 1 + s)) as Ht2.
    fold t in Ht2. unfold s in *. lia.
  - pose proof (bpow_gt_0 e') as Hb.
    assert (Hv2 : (v * v = IZR m' * (bpow e' * bpow e'))%R).
    { rewrite Hvv, Hm', mult_IZR, <- bpow_plus.
      replace e with (e' + e' + s) at 1 by (unfold s; lia).
      rewrite bpow_shift by lia. ring. }
    assert (Hlo : (IZR q * IZR q <= IZR m')%R)
      by (rewrite <- mult_IZR; apply IZR_le; lia).
    assert (Hhi : (IZR m' < IZR (q + 1) * IZR (q + 1))%R)
      by (rewrite <- mult_IZR; apply IZR_lt; lia).
    assert (Hq0R : (0 <= IZR q)%R) by (apply IZR_le; lia).
    rewrite plus_IZR in *.
    set (B := bpow e') in *. set (Q := IZR q) in *. set (M := IZR m') in *.
    assert (HB2 : (0 < B * B)%R) by nra.
    split.
    + destruct (Rle_lt_dec (Q * B) v) as [|Hc]; trivial. exfalso.
      assert (v * v < (Q * B) * (Q * B))%R by nra.
      assert (Q * Q * (B * B) <= M * (B * B))%R by nra.
      nra.
    + destruct (Rle_lt_dec v ((Q + 1) * B)) as [|Hc]; trivial. exfalso.
      assert (0 <= (Q + 1) * B)%R by (apply Rmult_le_pos; lra).
      assert ((Q + 1) * B * ((Q + 1) * B) < v * v)%R
        by (apply Rmult_le_0_lt_compat; lra).
      assert (M * (B * B) < (Q + 1) * (Q + 1) * (B * B))%R by nra.
      nra.
Qed.

Section SquareRoot.

Local Open Scope R_scope.

(** [sqrtf x]: it rounds the real [v] whose square is [x]; it cannot
    overflow. *)
Lemma sqrt_spec (x : float) (v : R) :
  valid x = true -> is_finite x = true ->
  0 <= v -> v * v = SF2R x ->
  rounded v (sqrtf x).
Proof.
  intros Hx Fx Hv0 Hvv.
  destruct x as [sx|sx| |sx mx ex]; try discriminate Fx.
  - simpl in Hvv. assert (v = 0) by nra. subst v. apply rounded_zero.
  - rewrite SF2R_finite in Hvv.
    assert (Hpos : 0 < IZR (Z.pos mx) * bpow ex).
    { apply Rmult_lt_0_compat; [apply IZR_lt; lia | apply bpow_gt_0]. }
    destruct sx; [unfold sgnR in Hvv; nra|].
    unfold sgnR in Hvv. unfold sqrtf, SFsqrt.
    pose proof (sqrt_core_spec mx ex v Hv0 Hvv) as Hc.
    destruct (SFsqrt_core_binary prec emax (Z.pos mx) ex) as [[q e'] l].
    destruct Hc as (Hq & Hk & Hv).
    apply (round_result_small _ _ (round_aux_result false q e' l v Hq Hk Hv)).
    unfold sgnR. rewrite Rabs_pos_eq by trivial.
    destruct (valid_finite_facts _ _ _ Hx) as (Hd & He & _).
    pose proof (Zdigits2_bounds (Z.pos mx) ltac:(lia)) as [_ Hm].
    assert (Hm24 : (Z.pos mx < 2 ^ 24)%Z).
    { apply Z.lt_le_trans with (1 := Hm). apply Z.pow_le_mono_r; lia. }
    apply IZR_lt in Hm24.
    assert (Hb : bpow ex <= bpow 104) by (apply bpow_le; lia).
    rewrite (bpow_IZR 104) in Hb by lia.
    rewrite (bpow_IZR 127) by lia.
    pose proof (bpow_gt_0 ex).
    destruct (Rlt_le_dec v (IZR (2 ^ 127))) as [|Hc]; trivial. exfalso.
    assert (H1 : IZR (2 ^ 127) * IZR (2 ^ 127) <= v * v).
    { apply Rmult_le_compat; trivial; apply IZR_le; lia. }
    assert (H2 : IZR (Z.pos mx) * bpow ex <= IZR (2 ^ 24) * IZR (2 ^ 104)).
    { apply Rmult_le_compat; try lra. apply IZR_le; lia. }
    rewrite <- mult_IZR in H1, H2.
    assert (H3 : IZR (2 ^ 24 * 2 ^ 104) < IZR (2 ^ 127 * 2 ^ 127))
      by (apply IZR_lt; reflexivity).
    lra.
Qed.

End SquareRoot.

(** ** Comparison *)

Section Comparison.

Local Open Scope R_scope.

Lemma mag_lt (m1 m2 : positive) (e1 e2 : Z) :
  valid (S754_finite false m1 e1) = true ->
  valid (S754_finite false m2 e2) = true ->
  (e1 < e2)%Z ->
  IZR (Z.pos m1) * bpow e1 < IZR (Z.pos m2) * bpow e2.
Proof.
  intros H1 H2 He.
  destruct (valid_finite_facts _ _ _ H1) as (Hd1 & He1 & _).
  destruct (valid_finite_facts _ _ _ H2) as (Hd2 & _ & Hn2).
  pose proof (Zdigits2_bounds (Z.pos m1) ltac:(lia)) as [_ Hm1].
  pose proof (Zdigits2_bounds (Z.pos m2) ltac:(lia)) as [Hm2 _].
  rewrite Hn2 in Hm2 by lia.
  assert (Hm1' : (Z.pos m1 < 2 ^ 24)%Z).
  { apply Z.lt_le_trans with (1 := Hm1). apply Z.pow_le_mono_r; lia. }
  apply IZR_lt in Hm1'. apply IZR_le in Hm2.
  change (2 ^ 24)%Z with 16777216%Z in Hm1'.
  change (2 ^ (24 - 1))%Z with 8388608%Z in Hm2.
  assert (Hb : bpow (e1 + 1) <= bpow e2) by (apply bpow_le; lia).
  rewrite bpow_succ in Hb.
  pose proof (bpow_gt_0 e1). pose proof (bpow_gt_0 e2).
  apply Rlt_le_trans with (16777216 * bpow e1); [nra|].
  apply Rle_trans with (8388608 * bpow e2); nra.
Qed.

Lemma mag_compare (m1 m2 : positive) (e1 e2 : Z) :
  valid (S754_finite false m1 e1) = true ->
  valid (S754_finite false m2 e2) = true ->
  Rcmp (match (e1 ?= e2)%Z with
        | Lt => Lt
        | Gt => Gt
        | Eq => Pos.compare_cont Eq m1 m2
        end)
       (IZR (Z.pos m1) * bpow e1) (IZR (Z.pos m2) * bpow e2).
Proof.
  intros H1 H2. destruct (Z.compare_spec e1 e2) as [-> | He | He].
  - change (Pos.compare_cont Eq m1 m2) with (Pos.compare m1 m2).
    pose proof (bpow_gt_0 e2).
    destruct (Pos.compare_spec m1 m2) as [-> | Hm | Hm]; simpl; trivial.
    + apply Rmult_lt_compat_r; trivial. apply IZR_lt. lia.
    + apply Rmult_lt_compat_r; trivial. apply IZR_lt. lia.
  - simpl. now apply mag_lt.
  - simpl. now apply mag_lt.
Qed.

Lemma Rcmp_opp (c : comparison) (a b : R) :
  Rcmp c a b -> Rcmp (CompOpp c) (- a) (- b).
Proof. destruct c; simpl; intros; lra. Qed.

(** On finite floats the comparison of [SpecFloat] is the comparison of
    the real values. *)
Lemma SFcompare_R (x y : float) :
  valid x = true -> valid y = true ->
  is_finite x = true -> is_finite y = true ->
  exists c : comparison,
    SFcompare x y = Some c /\ Rcmp c (SF2R x) (SF2R y).
Proof.
  intros Hx Hy Fx Fy.
  destruct x as [sx|sx| |sx mx ex]; try discriminate Fx;
    destruct y as [sy|sy| |sy my ey]; try discriminate Fy;
    simpl SFcompare; rewrite ?SF2R_finite; simpl (SF2R (S754_zero _)).
  - exists Eq. now split.
  - assert (0 < IZR (Z.pos my) * bpow ey)
      by (apply Rmult_lt_0_compat; [apply IZR_lt; lia | apply bpow_gt_0]).
    eexists. split; [reflexivity|]. destruct sy; simpl; lra.
  - assert (0 < IZR (Z.pos mx) * bpow ex)
      by (apply Rmult_lt_0_compat; [apply IZR_lt; lia | apply bpow_gt_0]).
    eexists. split; [reflexivity|]. destruct sx; simpl; lra.
  - assert (0 < IZR (Z.pos mx) * bpow ex)
      by (apply Rmult_lt_0_compat; [apply IZR_lt; lia | apply bpow_gt_0]).
    assert (0 < IZR (Z.pos my) * bpow ey)
      by (apply Rmult_lt_0_compat; [apply IZR_lt; lia | apply bpow_gt_0]).
    eexists. split; [reflexivity|].
    pose proof (mag_compare mx my ex ey Hx Hy) as Hc.
    destruct sx, sy; unfold sgnR; try (simpl; lra).
    + apply Rcmp_opp in Hc.
      destruct (ex ?= ey)%Z; simpl in *; trivial.
    + exact Hc.
Qed.

Lemma ltb_R (x y : float) :
  valid x = true -> valid y = true ->
  is_finite x = true -> is_finite y = true ->
  ltb x y = true <-> SF2R x < SF2R y.
Proof.
  intros Hx Hy Fx Fy.
  destruct (SFcompare_R x y Hx Hy Fx Fy) as (c & Hc & Hr).
  unfold ltb, SFltb. rewrite Hc.
  destruct c; simpl in Hr; split; intros H; try discriminate; trivial; lra.
Qed.

Lemma leb_R (x y : float) :
  valid x = true -> valid y = true ->
  is_finite x = true -> is_finite y = true ->
  leb x y = true <-> SF2R x <= SF2R y.
Proof.
  intros Hx Hy Fx Fy.
  destruct (SFcompare_R x y Hx Hy Fx Fy) as (c & Hc & Hr).
  unfold leb, SFleb. rewrite Hc.
  destruct c; simpl in Hr; split; intros H; try discriminate; trivial; lra.
Qed.

Lemma eqb_R (x y : float) :
  valid x = true -> valid y = true ->
  is_finite x = true -> is_finite y = true ->
  eqb x y = true <-> SF2R x = SF2R y.
Proof.
  intros Hx Hy Fx Fy.
  destruct (SFcompare_R x y Hx Hy Fx Fy) as (c & Hc & Hr).
  unfold eqb, SFeqb. rewrite Hc.
  destruct c; simpl in Hr; split; intros H; try discriminate; trivial; lra.
Qed.

Lemma abs_R (x : float) : SF2R (abs x) = Rabs (SF2R x).
Proof.
  destruct x as [s|s| |s m e]; simpl abs; simpl SF2R;
    try (now rewrite Rabs_R0).
  change (IZR (Z.pos m) * bpow e) with (SF2R (S754_finite false m e)).
  change (IZR (cond_Zopp s (Z.pos m)) * bpow e) with (SF2R (S754_finite s m e)).
  rewrite !SF2R_finite, Rabs_sgnR. unfold sgnR. symmetry. apply Rabs_pos_eq.
  apply Rmult_le_pos; [apply IZR_le; lia | apply Rlt_le, bpow_gt_0].
Qed.

Lemma abs_valid (x : float) : valid (abs x) = valid x.
Proof. now destruct x. Qed.

Lemma abs_finite (x : float) : is_finite (abs x) = is_finite x.
Proof. now destruct x. Qed.

End Comparison.

(** * The vector operations *)

(** ** Adding and subtracting back *)

Section AddSub.

Local Open Scope R_scope.

Lemma Rabs_le_inv (x y : R) : Rabs x <= y -> - y <= x <= y.
Proof. unfold Rabs. destruct (Rcase_abs x); lra. Qed.

Lemma bpow_Zneg (p : positive) : bpow (Z.neg p) = / IZR (2 ^ Z.pos p).
Proof.
  change (Z.neg p) with (- Z.pos p)%Z. rewrite bpow_opp, bpow_IZR; trivial.
  lia.
Qed.

Lemma bpow_m23 : bpow (-23) = / 8388608.
Proof. apply bpow_Zneg. Qed.

Lemma bpow_m149_le : bpow (-149) <= / 1125899906842624.
Proof.
  apply Rle_trans with (bpow (-50)); [apply bpow_le; lia|].
  rewrite bpow_Zneg. apply Rle_refl.
Qed.

Lemma bpow_127_ge : 1048576 <= bpow 127.
Proof.
  apply Rle_trans with (bpow 20); [|apply bpow_le; lia].
  rewrite (bpow_IZR 20) by lia. apply Rle_refl.
Qed.

Lemma within_facts (B x : float) :
  valid B = true -> is_finite B = true -> within B x = true ->
  valid x = true /\ is_finite x = true /\ Rabs (SF2R x) <= SF2R B.
Proof.
  intros HB FB H. apply andb_true_iff in H. destruct H as [Hv Hl].
  assert (Hf : is_finite x = true).
  { destruct x as [s|s| |s m e]; trivial.
    destruct B as [sb|sb| |sb mb eb]; try discriminate FB; discriminate Hl. }
  repeat split; trivial.
  rewrite <- abs_R. apply leb_R; trivial.
  - now rewrite abs_valid.
  - now rewrite abs_finite.
Qed.

Lemma rounded_err (v B : R) (r : float) :
  rounded v r -> Rabs v <= B ->
  - (bpow (-23) * B + bpow (-149)) <= SF2R r - v
  <= bpow (-23) * B + bpow (-149).
Proof.
  intros (_ & _ & H) HB. apply Rabs_le_inv.
  apply Rle_trans with (1 := H). pose proof (bpow_gt_0 (-23)). nra.
Qed.

Lemma SF2R_256 : SF2R (of_Z 256) = 256.
Proof.
  change (of_Z 256) with (S754_finite false 8388608 (-15)).
  unfold SF2R. simpl cond_Zopp. rewrite bpow_Zneg.
  change (2 ^ 15)%Z with 32768%Z. lra.
Qed.

Lemma SF2R_tolerance : SF2R MAX_FLOAT_TOLERANCE = 13743895 / 137438953472.
Proof.
  rewrite MAX_FLOAT_TOLERANCE_bits. unfold SF2R. simpl cond_Zopp.
  rewrite bpow_Zneg. reflexivity.
Qed.

(** One component of [(a + b) - b == a] *)
Lemma add_sub_close (x y : float) :
  within (of_Z 256) x = true -> within (of_Z 256) y = true ->
  gtb MAX_FLOAT_TOLERANCE (abs (sub (sub (add x y) y) x)) = true.
Proof.
  intros Hx Hy.
  destruct (within_facts (of_Z 256) x eq_refl eq_refl Hx) as (Vx & Fx & Bx).
  destruct (within_facts (of_Z 256) y eq_refl eq_refl Hy) as (Vy & Fy & By).
  rewrite SF2R_256 in Bx, By.
  apply Rabs_le_inv in Bx. apply Rabs_le_inv in By.
  pose proof bpow_m23 as Hu. pose proof bpow_m149_le as Heta.
  pose proof (bpow_gt_0 (-149)) as Heta0. pose proof bpow_127_ge as Hbig.
  (* r1 = x + y *)
  pose proof (add_spec x y Vx Vy Fx Fy) as H1.
  assert (B1 : Rabs (SF2R x + SF2R y) <= 512) by (apply Rabs_le; lra).
  apply round_result_small in H1; [|lra].
  pose proof (rounded_err _ _ _ H1 B1) as E1.
  destruct H1 as (V1 & F1 & _).
  set (r1 := add x y) in *.
  (* r2 = r1 - y *)
  pose proof (sub_spec r1 y V1 Vy F1 Fy) as H2.
  assert (B2 : Rabs (SF2R r1 - SF2R y) <= 257) by (apply Rabs_le; lra).
  apply round_result_small in H2; [|lra].
  pose proof (rounded_err _ _ _ H2 B2) as E2.
  destruct H2 as (V2 & F2 & _).
  set (r2 := sub r1 y) in *.
  (* d = r2 - x *)
  pose proof (sub_spec r2 x V2 Vx F2 Fx) as H3.
  assert (B3 : Rabs (SF2R r2 - SF2R x) <= 92 / 1000000) by (apply Rabs_le; lra).
  apply round_result_small in H3; [|lra].
  pose proof (rounded_err _ _ _ H3 B3) as E3.
  destruct H3 as (V3 & F3 & _).
  set (d := sub r2 x) in *.
  unfold gtb. apply ltb_R; trivial.
  - now rewrite abs_valid.
  - now rewrite abs_finite.
  - rewrite abs_R, SF2R_tolerance. apply Rabs_def1; lra.
Qed.

End AddSub.

(** ** Magnitude and normalisation *)

Section Magnitude.

Local Open Scope R_scope.

Lemma rounded_abs_err (v : R) (r : float) :
  rounded v r ->
  - (/ 8388608 * Rabs v + bpow (-149)) <= SF2R r - v
  <= / 8388608 * Rabs v + bpow (-149).
Proof. intros (_ & _ & H). rewrite <- bpow_m23. now apply Rabs_le_inv. Qed.

Lemma bpow_m149_split : bpow (-149) = / 536870912 * bpow (-120).
Proof.
  change (-149)%Z with (-29 + -120)%Z. rewrite bpow_plus. f_equal.
  apply bpow_Zneg.
Qed.

(** The computed magnitude [m] of a vector whose exact squared length
    [S] is neither tiny nor huge: [m * m] is [S] up to a relative error
    of [2^-20]. *)
Lemma GetMagnitude_sq (x y : float) :
  valid x = true -> valid y = true ->
  is_finite x = true -> is_finite y = true ->
  let S := SF2R x * SF2R x + SF2R y * SF2R y in
  let m := GetMagnitude (mkVec2D x y) in
  bpow (-120) <= S <= bpow 121 ->
  valid m = true /\ is_finite m = true /\ 0 < SF2R m /\
  (1 - / 1048576) * S <= SF2R m * SF2R m <= (1 + / 1048576) * S.
Proof.
  intros Vx Vy Fx Fy S m HS. unfold m, GetMagnitude. simpl m_x. simpl m_y.
  pose proof bpow_m23 as Hu. pose proof (bpow_gt_0 (-149)) as Heta0.
  pose proof (bpow_gt_0 (-120)) as HL0.
  assert (H127 : bpow 121 * 64 = bpow 127).
  { change 127%Z with (121 + 6)%Z. rewrite bpow_plus. f_equal.
    now rewrite (bpow_IZR 6). }
  assert (Heta : bpow (-149) <= / 536870912 * S).
  { rewrite bpow_m149_split. apply Rmult_le_compat_l; lra. }
  assert (Hx2 : 0 <= SF2R x * SF2R x) by nra.
  assert (Hy2 : 0 <= SF2R y * SF2R y) by nra.
  (* the two squares *)
  pose proof (mul_spec x x Vx Vx Fx Fx) as Ha.
  apply round_result_small in Ha; [|rewrite Rabs_pos_eq by trivial; unfold S in *; lra].
  pose proof (rounded_abs_err _ _ Ha) as Ea. rewrite Rabs_pos_eq in Ea by trivial.
  destruct Ha as (Va & Fa & _).
  pose proof (mul_spec y y Vy Vy Fy Fy) as Hb.
  apply round_result_small in Hb; [|rewrite Rabs_pos_eq by trivial; unfold S in *; lra].
  pose proof (rounded_abs_err _ _ Hb) as Eb. rewrite Rabs_pos_eq in Eb by trivial.
  destruct Hb as (Vb & Fb & _).
  set (a := mul x x) in *. set (b := mul y y) in *.
  set (x2 := SF2R x * SF2R x) in *. set (y2 := SF2R y * SF2R y) in *.
  assert (HSdef : S = x2 + y2) by reflexivity. clearbody S x2 y2.
  (* their sum *)
  assert (Hab : 0 <= SF2R a + SF2R b) by lra.
  pose proof (add_spec a b Va Vb Fa Fb) as Hs.
  apply round_result_small in Hs; [|rewrite Rabs_pos_eq by trivial; lra].
  pose proof (rounded_abs_err _ _ Hs) as Es. rewrite Rabs_pos_eq in Es by trivial.
  destruct Hs as (Vs & Fs & _).
  set (s := add a b) in *.
  assert (HSs : (1 - / 2097152) * S <= SF2R s <= (1 + / 2097152) * S) by lra.
  (* the square root *)
  assert (Hs0 : 0 < SF2R s) by lra.
  pose proof (sqrt_sqrt (SF2R s) ltac:(lra)) as Hww.
  pose proof (sqrt_pos (SF2R s)) as Hw0.
  pose proof (sqrt_spec s (sqrt (SF2R s)) Vs Fs Hw0 Hww) as Hm.
  pose proof (rounded_abs_err _ _ Hm) as Em. rewrite Rabs_pos_eq in Em by trivial.
  destruct Hm as (Vm & Fm & _).
  set (w := sqrt (SF2R s)) in *. set (M := SF2R (sqrtf s)) in *.
  clearbody w M.
  (* the square root is not tiny *)
  assert (H61 : bpow (-61) * bpow (-61) = / 4 * bpow (-120)).
  { rewrite <- bpow_plus. change (-61 + -61)%Z with (-2 + -120)%Z.
    rewrite bpow_plus. f_equal. now rewrite bpow_Zneg. }
  pose proof (bpow_gt_0 (-61)) as H61pos.
  assert (Hwlo : bpow (-61) <= w).
  { destruct (Rle_lt_dec (bpow (-61)) w) as [|Hc]; trivial. exfalso.
    assert (w * w < bpow (-61) * bpow (-61))
      by (apply Rmult_le_0_lt_compat; lra).
    lra. }
  assert (Heta' : bpow (-149) <= / 16777216 * w).
  { apply Rle_trans with (/ 16777216 * bpow (-61)); [|lra].
    change (-149)%Z with (-88 + -61)%Z. rewrite bpow_plus.
    apply Rmult_le_compat_r; [lra|].
    apply Rle_trans with (bpow (-24)); [apply bpow_le; lia|].
    rewrite bpow_Zneg. apply Rle_refl. }
  assert (HM : (1 - / 4194304) * w <= M <= (1 + / 4194304) * w) by lra.
  repeat split; trivial.
  - nra.
  - apply Rle_trans with ((1 - / 4194304) * w * ((1 - / 4194304) * w)).
    + replace ((1 - / 4194304) * w * ((1 - / 4194304) * w))
        with ((1 - / 4194304) * (1 - / 4194304) * SF2R s) by (rewrite <- Hww; ring).
      nra.
    + apply Rmult_le_compat; nra.
  - apply Rle_trans with ((1 + / 4194304) * w * ((1 + / 4194304) * w)).
    + apply Rmult_le_compat; nra.
    + replace ((1 + / 4194304) * w * ((1 + / 4194304) * w))
        with ((1 + / 4194304) * (1 + / 4194304) * SF2R s) by (rewrite <- Hww; ring).
      nra.
Qed.

End Magnitude.

Section Normalized.

Local Open Scope R_scope.

Lemma prod_bound (a b A B : R) :
  Rabs a <= A -> Rabs b <= B -> - (A * B) <= a * b <= A * B.
Proof.
  intros Ha Hb. apply Rabs_le_inv. rewrite Rabs_mult.
  apply Rmult_le_compat; trivial; apply Rabs_pos.
Qed.

Lemma sq_le_abs (a A : R) : 0 <= A -> a * a <= A * A -> Rabs a <= A.
Proof.
  intros HA H. apply Rabs_le.
  split.
  - destruct (Rle_lt_dec (- A) a) as [|Hc]; trivial. exfalso.
    assert (A * A < (- a) * (- a)) by (apply Rmult_le_0_lt_compat; lra). lra.
  - destruct (Rle_lt_dec a A) as [|Hc]; trivial. exfalso.
    assert (A * A < a * a) by (apply Rmult_le_0_lt_compat; lra). lra.
Qed.

Lemma SF2R_zero : SF2R zero = 0.
Proof. reflexivity. Qed.

Lemma SF2R_one : SF2R one = 1.
Proof.
  rewrite one_bits. unfold SF2R. simpl cond_Zopp. rewrite bpow_Zneg.
  change (2 ^ 23)%Z with 8388608%Z. lra.
Qed.

Lemma bpow_m120_le : bpow (-120) <= / 2.
Proof.
  apply Rle_trans with (bpow (-1)); [apply bpow_le; lia|].
  rewrite bpow_Zneg. apply Rle_refl.
Qed.

Lemma bpow_121_ge : 2 <= bpow 121.
Proof.
  apply Rle_trans with (bpow 1); [|apply bpow_le; lia].
  rewrite (bpow_IZR 1) by lia. apply Rle_refl.
Qed.

(** The normalised form of a vector whose exact squared length [S] is
    neither tiny nor huge: the division branch is taken, and the exact
    squared length of the result is 1 up to [2^-18]. *)
Lemma GetNormalized_sq (x y : float) :
  valid x = true -> valid y = true ->
  is_finite x = true -> is_finite y = true ->
  let S := SF2R x * SF2R x + SF2R y * SF2R y in
  let n := GetNormalized (mkVec2D x y) in
  bpow (-120) <= S <= bpow 121 ->
  valid (m_x n) = true /\ valid (m_y n) = true /\
  is_finite (m_x n) = true /\ is_finite (m_y n) = true /\
  Rabs (SF2R (m_x n) * SF2R (m_x n) + SF2R (m_y n) * SF2R (m_y n) - 1)
  <= / 262144.
Proof.
  intros Vx Vy Fx Fy S n HS.
  destruct (GetMagnitude_sq x y Vx Vy Fx Fy HS) as (Vm & Fm & Hm0 & Hm2).
  fold S in Hm2.
  assert (Hne : neqb (GetMagnitude (mkVec2D x y)) zero = true).
  { unfold neqb. fold (eqb (GetMagnitude (mkVec2D x y)) zero).
    destruct (eqb (GetMagnitude (mkVec2D x y)) zero) eqn:E; trivial.
    apply eqb_R in E; trivial. rewrite SF2R_zero in E. lra. }
  unfold n, GetNormalized. rewrite Hne. simpl m_x. simpl m_y.
  set (m := GetMagnitude (mkVec2D x y)) in *.
  pose proof (bpow_gt_0 (-149)) as Heta0.
  pose proof bpow_m149_le as Heta. pose proof bpow_127_ge as Hbig.
  pose proof (bpow_gt_0 (-120)) as HL0.
  set (M := SF2R m) in *.
  assert (HM : M <> 0) by lra.
  set (p := SF2R x / M). set (q := SF2R y / M).
  assert (Hp : p * M = SF2R x) by (unfold p; field; trivial).
  assert (Hq : q * M = SF2R y) by (unfold q; field; trivial).
  set (T := p * p + q * q).
  assert (HT : T * (M * M) = S) by (unfold T, S; rewrite <- Hp, <- Hq; ring).
  assert (HM2 : 0 < M * M) by nra.
  assert (HT1 : 1 - / 524288 <= T <= 1 + / 524288).
  { rewrite <- HT in Hm2. split; nra. }
  assert (Hp2 : 0 <= p * p) by nra. assert (Hq2 : 0 <= q * q) by nra.
  assert (Bp : Rabs p <= 3 / 2) by (apply sq_le_abs; unfold T in HT1; lra).
  assert (Bq : Rabs q <= 3 / 2) by (apply sq_le_abs; unfold T in HT1; lra).
  (* the two quotients *)
  pose proof (div_spec x m Vx Vm Fx Fm HM) as Hnx. fold M p in Hnx.
  apply round_result_small in Hnx; [|lra].
  pose proof (rounded_abs_err _ _ Hnx) as Ex. destruct Hnx as (Vnx & Fnx & _).
  pose proof (div_spec y m Vy Vm Fy Fm HM) as Hny. fold M q in Hny.
  apply round_result_small in Hny; [|lra].
  pose proof (rounded_abs_err _ _ Hny) as Ey. destruct Hny as (Vny & Fny & _).
  repeat split; trivial.
  set (ex := SF2R (div x m) - p) in *. set (ey := SF2R (div y m) - q) in *.
  replace (SF2R (div x m)) with (p + ex) by (unfold ex; ring).
  replace (SF2R (div y m)) with (q + ey) by (unfold ey; ring).
  assert (Bex : Rabs ex <= / 4194304) by (apply Rabs_le; lra).
  assert (Bey : Rabs ey <= / 4194304) by (apply Rabs_le; lra).
  pose proof (prod_bound _ _ _ _ Bp Bex) as P1.
  pose proof (prod_bound _ _ _ _ Bq Bey) as P2.
  pose proof (prod_bound _ _ _ _ Bex Bex) as P3.
  pose proof (prod_bound _ _ _ _ Bey Bey) as P4.
  replace ((p + ex) * (p + ex) + (q + ey) * (q + ey) - 1)
    with (T - 1 + 2 * (p * ex) + 2 * (q * ey) + ex * ex + ey * ey)
    by (unfold T; ring).
  apply Rabs_le. lra.
Qed.

End Normalized.

Section Moderate.

Local Open Scope R_scope.

Lemma SF2R_two_p60 : SF2R two_p60 = bpow 60.
Proof.
  unfold two_p60, SF2R. simpl cond_Zopp.
  change 60%Z with (23 + 37)%Z. rewrite bpow_plus. f_equal.
  now rewrite (bpow_IZR 23).
Qed.

Lemma SF2R_two_m60 : SF2R two_m60 = bpow (-60).
Proof.
  unfold two_m60, SF2R. simpl cond_Zopp.
  change (-60)%Z with (23 + -83)%Z. rewrite bpow_plus. f_equal.
  now rewrite (bpow_IZR 23).
Qed.

Lemma moderate_facts (v : Vec2D) :
  moderate v = true ->
  valid (m_x v) = true /\ valid (m_y v) = true /\
  is_finite (m_x v) = true /\ is_finite (m_y v) = true /\
  bpow (-120) <= SF2R (m_x v) * SF2R (m_x v) + SF2R (m_y v) * SF2R (m_y v)
  <= bpow 121.
Proof.
  unfold moderate, vec_within. intros H.
  apply andb_true_iff in H. destruct H as [H Hlo].
  apply andb_true_iff in H. destruct H as [Hx Hy].
  destruct (within_facts two_p60 _ eq_refl eq_refl Hx) as (Vx & Fx & Bx).
  destruct (within_facts two_p60 _ eq_refl eq_refl Hy) as (Vy & Fy & By).
  rewrite SF2R_two_p60 in Bx, By.
  repeat split; trivial.
  - assert (H60 : bpow (-120) = bpow (-60) * bpow (-60))
      by (rewrite <- bpow_plus; reflexivity).
    pose proof (bpow_gt_0 (-60)) as Hpos.
    assert (Hsq : forall a, bpow (-60) <= Rabs a -> bpow (-120) <= a * a).
    { intros a Ha. rewrite H60.
      replace (a * a) with (Rabs a * Rabs a)
        by (unfold Rabs; destruct (Rcase_abs a); ring).
      apply Rmult_le_compat; lra. }
    apply orb_true_iff in Hlo. destruct Hlo as [Hl | Hl];
      apply leb_R in Hl; trivial;
      try (now rewrite abs_valid); try (now rewrite abs_finite);
      rewrite abs_R, SF2R_two_m60 in Hl; apply Hsq in Hl; nra.
  - assert (H120 : bpow 121 = 2 * (bpow 60 * bpow 60)).
    { rewrite <- bpow_plus. change 121%Z with (120 + 1)%Z.
      rewrite bpow_succ. reflexivity. }
    pose proof (bpow_gt_0 60) as Hpos.
    assert (Hsq : forall a, Rabs a <= bpow 60 -> a * a <= bpow 60 * bpow 60).
    { intros a Ha.
      replace (a * a) with (Rabs a * Rabs a)
        by (unfold Rabs; destruct (Rcase_abs a); ring).
      apply Rmult_le_compat; trivial; apply Rabs_pos. }
    apply Hsq in Bx, By. lra.
Qed.

(** The magnitude of the normalised form of a moderate vector *)
Lemma GetNormalized_magnitude (v : Vec2D) :
  moderate v = true ->
  let n := GetMagnitude (GetNormalized v) in
  valid n = true /\ is_finite n = true /\ Rabs (SF2R n - 1) <= / 65536.
Proof.
  intros Hv n.
  destruct (moderate_facts v Hv) as (Vx & Vy & Fx & Fy & HS).
  destruct v as [x y]. simpl m_x in *. simpl m_y in *.
  destruct (GetNormalized_sq x y Vx Vy Fx Fy HS)
    as (Vnx & Vny & Fnx & Fny & HN).
  unfold n. destruct (GetNormalized (mkVec2D x y)) as [nx ny].
  simpl m_x in *. simpl m_y in *.
  apply Rabs_le_inv in HN.
  pose proof bpow_m120_le. pose proof bpow_121_ge.
  destruct (GetMagnitude_sq nx ny Vnx Vny Fnx Fny) as (Vm & Fm & Hm0 & Hm2).
  { split; lra. }
  repeat split; trivial.
  set (M := SF2R (GetMagnitude (mkVec2D nx ny))) in *.
  apply Rabs_le. split; nra.
Qed.

End Moderate.

(** * The camera *)

(** ** Bounds on the arc cosine *)

Section ArcCosine.

Local Open Scope R_scope.

Lemma INR_fact_S (n : nat) : INR (fact (S n)) = INR (S n) * INR (fact n).
Proof. rewrite fact_simpl. apply mult_INR. Qed.

Lemma INR_fact_2 : INR (fact 2) = 2.
Proof. rewrite !INR_fact_S. simpl. lra. Qed.

Lemma INR_fact_4 : INR (fact 4) = 24.
Proof. rewrite 2!INR_fact_S, INR_fact_2. simpl. lra. Qed.

Lemma INR_fact_6 : INR (fact 6) = 720.
Proof. rewrite 2!INR_fact_S, INR_fact_4. simpl. lra. Qed.

Lemma INR_fact_8 : INR (fact 8) = 40320.
Proof. rewrite 2!INR_fact_S, INR_fact_6. simpl. lra. Qed.

Lemma INR_fact_10 : INR (fact 10) = 3628800.
Proof. rewrite 2!INR_fact_S, INR_fact_8. simpl. lra. Qed.

Lemma INR_fact_12 : INR (fact 12) = 479001600.
Proof. rewrite 2!INR_fact_S, INR_fact_10. simpl. lra. Qed.

Lemma cos_between (a : R) : -2 <= a <= 2 -> cos_lo a <= cos a <= cos_hi a.
Proof.
  intros [Hl Hh]. pose proof (pre_cos_bound a 2 Hl Hh) as H.
  unfold cos_approx in H.
  change (2 * 2 + 1)%nat with 5%nat in H.
  change (2 * (2 + 1))%nat with 6%nat in H.
  rewrite !tech5 in H. unfold sum_f_R0, cos_term in H.
  change (2 * 0)%nat with 0%nat in H. change (2 * 1)%nat with 2%nat in H.
  change (2 * 2)%nat with 4%nat in H. change (2 * 3)%nat with 6%nat in H.
  change (2 * 4)%nat with 8%nat in H. change (2 * 5)%nat with 10%nat in H.
  change (2 * 6)%nat with 12%nat in H.
  rewrite INR_fact_2, INR_fact_4, INR_fact_6, INR_fact_8, INR_fact_10,
    INR_fact_12 in H.
  change (INR (fact 0)) with 1 in H.
  unfold cos_hi, cos_lo. lra.
Qed.

Lemma PI_gt_3 : 3 < PI.
Proof. pose proof PI2_3_2. lra. Qed.

Lemma acos_ge (x t : R) :
  -1 <= x <= 1 -> 0 <= t <= 3 -> x <= cos t -> t <= acos x.
Proof.
  intros Hx Ht H. pose proof PI_gt_3. pose proof (acos_bound x) as Hb.
  destruct (Rle_lt_dec t (acos x)) as [|Hc]; trivial. exfalso.
  pose proof (cos_decreasing_1 (acos x) t) as Hd.
  rewrite cos_acos in Hd by trivial. lra.
Qed.

Lemma acos_le (x t : R) :
  -1 <= x <= 1 -> 0 <= t <= 3 -> cos t <= x -> acos x <= t.
Proof.
  intros Hx Ht H. pose proof PI_gt_3. pose proof (acos_bound x) as Hb.
  destruct (Rle_lt_dec (acos x) t) as [|Hc]; trivial. exfalso.
  pose proof (cos_decreasing_1 t (acos x)) as Hd.
  rewrite cos_acos in Hd by trivial. lra.
Qed.

Lemma SF2R_num (m : positive) (p : positive) :
  SF2R (S754_finite false m (Z.neg p)) = IZR (Z.pos m) / IZR (2 ^ Z.pos p).
Proof. unfold SF2R. simpl cond_Zopp. now rewrite bpow_Zneg. Qed.

Lemma acos_ratio_edge : 785398 / 1000000 <= acos (SF2R ratio_edge).
Proof.
  unfold ratio_edge. rewrite SF2R_num.
  change (2 ^ 24)%Z with 16777216%Z.
  apply acos_ge; try lra.
  apply Rle_trans with (cos_lo (785398 / 1000000));
    [|apply cos_between; lra].
  unfold cos_lo. lra.
Qed.

Lemma acos_ratio_inside : acos (SF2R ratio_inside) <= 785 / 1000.
Proof.
  unfold ratio_inside. rewrite SF2R_num.
  change (2 ^ 24)%Z with 16777216%Z.
  apply acos_le; try lra.
  apply Rle_trans with (cos_hi (785 / 1000));
    [apply cos_between; lra|].
  unfold cos_hi, cos_lo. lra.
Qed.

End ArcCosine.

(** ** The camera of [main] *)

Section MainCamera.

Local Open Scope R_scope.

Lemma acos_ratio_edge_le : acos (SF2R ratio_edge) <= 7853984 / 10000000.
Proof.
  unfold ratio_edge. rewrite SF2R_num.
  change (2 ^ 24)%Z with 16777216%Z.
  apply acos_le; try lra.
  apply Rle_trans with (cos_hi (7853984 / 10000000));
    [apply cos_between; lra|].
  unfold cos_hi, cos_lo. lra.
Qed.

Lemma acos_ratio_inside_le : acos (SF2R ratio_inside) <= 7843994 / 10000000.
Proof.
  unfold ratio_inside. rewrite SF2R_num.
  change (2 ^ 24)%Z with 16777216%Z.
  apply acos_le; try lra.
  apply Rle_trans with (cos_hi (7843994 / 10000000));
    [apply cos_between; lra|].
  unfold cos_hi, cos_lo. lra.
Qed.

Lemma acos_ratio_inside_ge : 784399 / 1000000 <= acos (SF2R ratio_inside).
Proof.
  unfold ratio_inside. rewrite SF2R_num.
  change (2 ^ 24)%Z with 16777216%Z.
  apply acos_ge; try lra.
  apply Rle_trans with (cos_lo (784399 / 1000000));
    [|apply cos_between; lra].
  unfold cos_lo. lra.
Qed.

Lemma bpow_m22 : bpow (-22) = / 4194304.
Proof. apply bpow_Zneg. Qed.

Lemma acosf_main_accurate :
  acosf_accurate acosf_main ratio_edge /\
  acosf_accurate acosf_main ratio_inside.
Proof.
  split; (split; [reflexivity|]; split; [reflexivity|]).
  - change (acosf_main ratio_edge) with angle_edge.
    pose proof acos_ratio_edge. pose proof acos_ratio_edge_le.
    unfold angle_edge. rewrite SF2R_num, bpow_m22.
    change (2 ^ 24)%Z with 16777216%Z. apply Rabs_le. lra.
  - change (acosf_main ratio_inside) with angle_inside.
    pose proof acos_ratio_inside_ge. pose proof acos_ratio_inside_le.
    unfold angle_inside. rewrite SF2R_num, bpow_m22.
    change (2 ^ 24)%Z with 16777216%Z. apply Rabs_le. lra.
Qed.

Lemma cam0_edge (acosf : float -> float) :
  CanSeeTarget acosf cam0 vec12 = ltb (acosf ratio_edge) half_fov0 /\
  CanSeeTarget acosf cam0 vec14 = ltb (acosf ratio_edge) half_fov0.
Proof. split; reflexivity. Qed.

Lemma cam0_inside (acosf : float -> float) :
  CanSeeTarget acosf cam0 vec13 = ltb (acosf ratio_inside) half_fov0 /\
  CanSeeTarget acosf cam0 vec15 = ltb (acosf ratio_inside) half_fov0.
Proof. split; reflexivity. Qed.

Lemma edge_not_below (acosf : float -> float) :
  acosf_accurate acosf ratio_edge -> ltb (acosf ratio_edge) half_fov0 = false.
Proof.
  intros (Hv & Hf & He).
  destruct (ltb (acosf ratio_edge) half_fov0) eqn:E; trivial.
  apply ltb_R in E; trivial. exfalso.
  unfold half_fov0 in E. rewrite SF2R_num in E.
  change (2 ^ 24)%Z with 16777216%Z in E.
  rewrite bpow_m22 in He. apply Rabs_le_inv in He.
  pose proof acos_ratio_edge. lra.
Qed.

Lemma inside_below (acosf : float -> float) :
  acosf_accurate acosf ratio_inside ->
  ltb (acosf ratio_inside) half_fov0 = true.
Proof.
  intros (Hv & Hf & He). apply ltb_R; trivial.
  unfold half_fov0. rewrite SF2R_num.
  change (2 ^ 24)%Z with 16777216%Z.
  rewrite bpow_m22 in He. apply Rabs_le_inv in He.
  pose proof acos_ratio_inside_le. lra.
Qed.

End MainCamera.

(** ** A zero orientation *)

Lemma finite_facts (x : float) :
  finite x = true -> valid x = true /\ is_finite x = true.
Proof. intros H. now apply andb_true_iff in H. Qed.






Section Distance.

Local Open Scope R_scope.


End Distance.

Lemma eqb_zero (x : float) : eqb x zero = is_zero x.
Proof. destruct x as [s|[|]| |[|] m e]; reflexivity. Qed.









(** ** Half of the field of view *)

Lemma div_eucl_exact (a b q : Z) :
  0 < b -> a = q * b -> Z.div_eucl a b = (q, 0).
Proof.
  intros Hb Ha. pose proof (Z_div_mod a b ltac:(lia)) as H.
  destruct (Z.div_eucl a b) as [q' r']. destruct H as [H1 H2].
  assert (q' = q) by nia. subst q'. f_equal. lia.
Qed.

(** Halving a normal number is exact: only the exponent changes. *)
Lemma div_two_normal (m : positive) (e : Z) :
  valid (S754_finite false m e) = true -> -147 <= e ->
  div (S754_finite false m e) two = S754_finite false m (e - 1).
Proof.
  intros Hv He.
  destruct (valid_finite_facts _ _ _ Hv) as (_ & Hb & Hn).
  assert (Hd : digits2_pos m = 24%positive).
  { specialize (Hn ltac:(lia)). simpl in Hn. now injection Hn. }
  unfold div, SFdiv. rewrite two_bits. unfold SFdiv_core_binary.
  change (Zdigits2 8388608) with 24. simpl Zdigits2. rewrite Hd.
  replace (Z.min (fexp prec emax (24 + e - (24 + -22))) (e - -22))
    with (e - 2) by (rewrite fexp_eq; lia).
  replace (e - -22 - (e - 2)) with 24 by lia.
  rewrite (div_eucl_exact (Z.shiftl (Z.pos m) 24) 8388608 (Z.pos m~0))
    by (rewrite ?Z.shiftl_mul_pow2; lia).
  change (new_location 8388608 0) with loc_Exact.
  unfold binary_round_aux, shr_fexp.
  change (Zdigits2 (Z.pos m~0)) with (Z.pos (Pos.succ (digits2_pos m))).
  rewrite Hd.
  replace (fexp prec emax (Z.pos (Pos.succ 24) + (e - 2)) - (e - 2)) with 1
    by (rewrite fexp_eq; lia).
  simpl shr. cbv beta iota zeta.
  simpl shr_m. simpl loc_of_shr_record. simpl round_nearest_even.
  simpl Zdigits2. rewrite Hd.
  replace (fexp prec emax (24 + (e - 2 + 1)) - (e - 2 + 1)) with 0
    by (rewrite fexp_eq; lia).
  simpl shr. cbv beta iota zeta. simpl shr_m.
  replace (e - 2 + 1) with (e - 1) by lia.
  change (emax - prec) with 104.
  now rewrite (proj2 (Z.leb_le (e - 1) 104)) by lia.
Qed.

Section HalfFieldOfView.

Local Open Scope R_scope.

Lemma SF2R_two : SF2R two = 2.
Proof.
  rewrite two_bits. unfold SF2R. simpl cond_Zopp. rewrite bpow_Zneg.
  change (2 ^ 22)%Z with 4194304%Z. lra.
Qed.

Lemma small_finite_lt_1 (m : positive) (e : Z) :
  valid (S754_finite false m e) = true -> (e < -23)%Z ->
  0 < SF2R (S754_finite false m e) < 1.
Proof.
  intros Hv He. destruct (valid_finite_facts _ _ _ Hv) as (Hd & _ & _).
  pose proof (Zdigits2_bounds (Z.pos m) ltac:(lia)) as [_ Hm].
  assert (Hm24 : (Z.pos m < 2 ^ 24)%Z).
  { apply Z.lt_le_trans with (1 := Hm). apply Z.pow_le_mono_r; lia. }
  apply IZR_lt in Hm24. change (2 ^ 24)%Z with 16777216%Z in Hm24.
  assert (Hb : bpow e <= bpow (-24)) by (apply bpow_le; lia).
  rewrite bpow_Zneg in Hb. change (2 ^ 24)%Z with 16777216%Z in Hb.
  pose proof (bpow_gt_0 e).
  assert (0 < IZR (Z.pos m)) by (apply IZR_lt; lia).
  unfold SF2R. simpl cond_Zopp. split; [nra|].
  apply Rlt_le_trans with (16777216 * bpow e); nra.
Qed.

(** [pio2_f < f / 2.0f] exactly when [pi_f < f] *)
Lemma half_fov_test (f : float) :
  valid f = true -> ltb pio2_f (div f two) = ltb pi_f f.
Proof.
  intros Hv. destruct f as [[|]|[|]| |[|] m e]; try reflexivity.
  - (* negative *)
    transitivity false; [|reflexivity].
    unfold div, SFdiv. rewrite two_bits.
    destruct (SFdiv_core_binary prec emax (Z.pos m) e 8388608 (-22))
      as [[mz ez] lz].
    pose proof (binary_round_aux_sign (xorb true false) mz ez lz) as H.
    destruct (binary_round_aux prec emax (xorb true false) mz ez lz);
      try subst s; reflexivity.
  - destruct (Z_lt_le_dec e (-23)) as [He | He].
    + (* below 1 *)
      pose proof (small_finite_lt_1 m e Hv He) as Hf.
      assert (Hpi : ltb pi_f (S754_finite false m e) = false).
      { destruct (ltb pi_f (S754_finite false m e)) eqn:E; trivial.
        apply ltb_R in E; trivial. unfold pi_f in E.
        rewrite SF2R_num in E. change (2 ^ 22)%Z with 4194304%Z in E. lra. }
      rewrite Hpi.
      pose proof (div_spec (S754_finite false m e) two Hv eq_refl eq_refl
                    eq_refl) as Hd.
      rewrite SF2R_two in Hd. specialize (Hd ltac:(lra)).
      pose proof bpow_127_ge. pose proof bpow_m149_le.
      pose proof (bpow_gt_0 (-149)).
      apply round_result_small in Hd;
        [|rewrite Rabs_pos_eq by lra; lra].
      pose proof (rounded_abs_err _ _ Hd) as Ed.
      rewrite Rabs_pos_eq in Ed by lra. destruct Hd as (Vd & Fd & _).
      destruct (ltb pio2_f (div (S754_finite false m e) two)) eqn:E; trivial.
      apply ltb_R in E; trivial. unfold pio2_f in E.
      rewrite SF2R_num in E. change (2 ^ 23)%Z with 8388608%Z in E. lra.
    + rewrite div_two_normal by (trivial; lia).
      unfold ltb, SFltb, pio2_f, pi_f, SFcompare.
      destruct (Z.compare_spec (-23) (e - 1)), (Z.compare_spec (-22) e);
        trivial; lia.
Qed.

End HalfFieldOfView.

Section Pi.

Local Open Scope R_scope.

Lemma PI_digits : 314159265 / 100000000 < PI < 314159266 / 100000000.
Proof.
  pose proof (PI_2_3_7_ineq 4) as H.
  change (S (2 * 4)) with 9%nat in H. change (2 * 4)%nat with 8%nat in H.
  rewrite !tech5 in H.
  unfold sum_f_R0, tg_alt, PI_2_3_7_tg, Ratan_seq in H.
  change (2 * 0 + 1)%nat with 1%nat in H. change (2 * 1 + 1)%nat with 3%nat in H.
  change (2 * 2 + 1)%nat with 5%nat in H. change (2 * 3 + 1)%nat with 7%nat in H.
  change (2 * 4 + 1)%nat with 9%nat in H. change (2 * 5 + 1)%nat with 11%nat in H.
  change (2 * 6 + 1)%nat with 13%nat in H. change (2 * 7 + 1)%nat with 15%nat in H.
  change (2 * 8 + 1)%nat with 17%nat in H. change (2 * 9 + 1)%nat with 19%nat in H.
  rewrite !INR_IZR_INZ in H. simpl Z.of_nat in H.
  lra.
Qed.


End Pi.

(** ** The range check and the distance in real numbers *)

Section RangeCheck.

Local Open Scope R_scope.



















End RangeCheck.

(** * The claims *)

Section Claims.

Local Open Scope R_scope.

Lemma approx_one_close (n : float) :
  valid n = true -> is_finite n = true ->
  Rabs (SF2R n - 1) <= / 65536 -> approx_one n = true.
Proof.
  intros Vn Fn Hn. unfold approx_one, gtb.
  pose proof (sub_spec n one Vn eq_refl Fn eq_refl) as Hd.
  rewrite SF2R_one in Hd.
  pose proof bpow_127_ge. pose proof bpow_m149_le.
  pose proof (bpow_gt_0 (-149)).
  apply round_result_small in Hd; [|lra].
  pose proof (rounded_err _ _ _ Hd Hn) as Ed. rewrite bpow_m23 in Ed.
  destruct Hd as (Vd & Fd & _). apply Rabs_le_inv in Hn.
  apply ltb_R; trivial.
  - now rewrite abs_valid.
  - now rewrite abs_finite.
  - rewrite abs_R, SF2R_tolerance. apply Rabs_def1; lra.
Qed.

Lemma moderate_approx_one (v : Vec2D) :
  moderate v = true -> approx_one (GetMagnitude (GetNormalized v)) = true.
Proof.
  intros Hv. destruct (GetNormalized_magnitude v Hv) as (Vn & Fn & Hn).
  now apply approx_one_close.
Qed.

Lemma eqb_not_ltb (a b : float) : eqb a b = true -> ltb a b = false.
Proof.
  unfold eqb, ltb, SFeqb, SFltb.
  destruct (SFcompare a b) as [[ | | ]|]; congruence.
Qed.

(** C1: the angular test of [CanSeeTarget] is the strict comparison
    [angleToTarget < m_fieldOfView / 2.0f]: for a target that passed the
    position and range checks the answer is that comparison, and an
    angle equal to half of the field of view gives false.  For the
    camera of [main] (origin, orientation (0,1), field of view
    [PI_F / 2], view distance 100) and every [acosf] that is within
    [2^-22] of the arc cosine on the two ratios the code computes, the
    targets (50, 50) and (-50, 50) are not seen and the targets
    (50, 50.1) and (-50, 50.1) are seen. *)
Theorem CanSeeTarget_boundary (acosf : float -> float) :
  (forall (c : Camera2D) (t : Vec2D),
      vec_eq t (m_position c) = false ->
      leb (GetMagnitude (vec_sub t (m_position c))) (m_viewDistance c)
      = true ->
      CanSeeTarget acosf c t
      = ltb (angleToTarget acosf c t) (div (m_fieldOfView c) two)) /\
  (forall (c : Camera2D) (t : Vec2D),
      eqb (angleToTarget acosf c t) (div (m_fieldOfView c) two) = true ->
      CanSeeTarget acosf c t = false) /\
  (angleToTarget acosf cam0 vec12 = acosf ratio_edge /\
   angleToTarget acosf cam0 vec13 = acosf ratio_inside /\
   angleToTarget acosf cam0 vec14 = acosf ratio_edge /\
   angleToTarget acosf cam0 vec15 = acosf ratio_inside /\
   div (m_fieldOfView cam0) two = half_fov0) /\
  (acosf_accurate acosf ratio_edge ->
   acosf_accurate acosf ratio_inside ->
   CanSeeTarget acosf cam0 vec12 = false /\
   CanSeeTarget acosf cam0 vec13 = true /\
   CanSeeTarget acosf cam0 vec14 = false /\
   CanSeeTarget acosf cam0 vec15 = true).
Proof.
  split; [|split; [|split]].
  - intros c t Hne Hin. unfold CanSeeTarget, angleToTarget.
    now rewrite Hne, Hin.
  - intros c t Heq. apply eqb_not_ltb in Heq.
    unfold CanSeeTarget. fold (angleToTarget acosf c t). rewrite Heq.
    destruct (vec_eq t (m_position c)); trivial.
    now destruct (leb _ (m_viewDistance c)).
  - repeat split.
  - intros He Hi.
    destruct (cam0_edge acosf) as [-> ->].
    destruct (cam0_inside acosf) as [-> ->].
    rewrite (edge_not_below acosf He), (inside_below acosf Hi).
    repeat split.
Qed.

Lemma CanSeeTarget_boundary_witness :
  CanSeeTarget acosf_main cam0 vec12 = false /\
  CanSeeTarget acosf_main cam0 vec13 = true /\
  CanSeeTarget acosf_main cam0 vec14 = false /\
  CanSeeTarget acosf_main cam0 vec15 = true.
Proof.
  apply (proj2 (proj2 (proj2 (CanSeeTarget_boundary acosf_main))));
    apply acosf_main_accurate.
Defined.




(** C3: [CanSeeTarget] returns false as soon as the target equals the
    camera's position under the approximate equality of [Vec2D]
    (tolerance 0.0001 per component), whatever the camera's state; and
    a camera never sees its own position, for every position, also one
    with a component that is infinite or not a number. *)
Theorem CanSeeTarget_own_position (acosf : float -> float) (c : Camera2D) :
  (forall t : Vec2D,
      vec_eq t (m_position c) = true -> CanSeeTarget acosf c t = false) /\
  CanSeeTarget acosf c (m_position c) = false.
Proof.
  split.
  - intros t H. unfold CanSeeTarget. now rewrite H.
  - apply CanSeeTarget_self.
Qed.

Lemma CanSeeTarget_own_position_witness :
  vec_eq (mkVec2D (of_dec 1 100000) zero) (m_position cam0) = true /\
  CanSeeTarget acosf_zero cam0 (mkVec2D (of_dec 1 100000) zero) = false.
Proof.
  split; [reflexivity|].
  apply (proj1 (CanSeeTarget_own_position acosf_zero cam0)).
  reflexivity.
Defined.

(** C4, as the code has it: the constructor and [SetOrientation] store
    [GetNormalized] of the vector they are given, for every vector.
    The stored vector has length 1 within the tolerance when the given
    vector is moderate (components at most [2^60] in absolute value,
    one of them at least [2^-60]); it is the zero vector when the
    given vector is the zero vector. *)
Theorem orientation_normalized :
  (forall (p o : Vec2D) (f d : float),
      m_orientation (Camera2D_new p o f d) = GetNormalized o) /\
  (forall (c : Camera2D) (o : Vec2D),
      m_orientation (SetOrientation c o) = GetNormalized o) /\
  (forall o : Vec2D,
      moderate o = true ->
      approx_one (GetMagnitude (GetNormalized o)) = true) /\
  (forall s1 s2 : bool,
      GetNormalized (mkVec2D (S754_zero s1) (S754_zero s2))
      = mkVec2D zero zero).
Proof.
  repeat split.
  - apply moderate_approx_one.
  - now intros [|] [|].
Qed.

Lemma orientation_normalized_witness :
  approx_one
    (GetMagnitude
       (m_orientation
          (SetOrientation cam0 (mkVec2D (of_Z 42) (of_Z (-12))))))
  = true.
Proof.
  rewrite (proj1 (proj2 orientation_normalized)).
  apply (proj1 (proj2 (proj2 orientation_normalized))).
  reflexivity.
Defined.

(** C4 as stated fails: constructed or set with the zero vector, the
    camera stores the zero vector, whose magnitude is 0, not 1. *)
Lemma orientation_zero_not_unit :
  m_orientation (Camera2D_new vec0 vec0 PI_F FLT_MAX) = mkVec2D zero zero /\
  m_orientation (SetOrientation cam0 vec0) = mkVec2D zero zero /\
  GetMagnitude (m_orientation (SetOrientation cam0 vec0)) = zero /\
  approx_one (GetMagnitude (m_orientation (SetOrientation cam0 vec0)))
  = false.
Proof. repeat split. Qed.

(** C5: the constructor stores the absolute values of its field of view
    and view distance arguments, which are never negative;
    [SetFieldOfView] stores its argument as it is, a negative one
    too. *)
Theorem constructor_abs_setter_raw :
  (forall (p o : Vec2D) (fieldOfView viewDistance : float),
      m_fieldOfView (Camera2D_new p o fieldOfView viewDistance)
      = abs fieldOfView /\
      m_viewDistance (Camera2D_new p o fieldOfView viewDistance)
      = abs viewDistance /\
      ltb (abs fieldOfView) zero = false /\
      ltb (abs viewDistance) zero = false /\
      abs (SFopp fieldOfView) = abs fieldOfView) /\
  (forall (c : Camera2D) (angleRad : float),
      m_fieldOfView (SetFieldOfView c angleRad) = angleRad) /\
  m_fieldOfView (Camera2D_new vec0 vec0 (SFopp one) (SFopp one)) = one /\
  m_viewDistance (Camera2D_new vec0 vec0 (SFopp one) (SFopp one)) = one /\
  m_fieldOfView (SetFieldOfView cam0 (SFopp one)) = SFopp one.
Proof.
  repeat split.
  - now destruct fieldOfView.
  - now destruct viewDistance.
  - now destruct fieldOfView.
Qed.

(** C6: normalising the zero vector gives the zero vector: the
    magnitude is zero and the guard skips the division.  Normalisation
    is a total function; on every input it either takes the guarded
    branch and returns [(0,0)], or divides by a magnitude that compared
    different from zero. *)
Theorem GetNormalized_zero :
  GetNormalized (mkVec2D zero zero) = mkVec2D zero zero /\
  (forall s1 s2 : bool,
      GetNormalized (mkVec2D (S754_zero s1) (S754_zero s2))
      = mkVec2D zero zero) /\
  (forall v : Vec2D,
      (eqb (GetMagnitude v) zero = true /\
       GetNormalized v = mkVec2D zero zero) \/
      (eqb (GetMagnitude v) zero = false /\
       GetNormalized v = mkVec2D (div (m_x v) (GetMagnitude v))
                                 (div (m_y v) (GetMagnitude v)))).
Proof.
  split; [reflexivity|]. split.
  - now intros [|] [|].
  - intros v. unfold GetNormalized, neqb. fold (eqb (GetMagnitude v) zero).
    destruct (eqb (GetMagnitude v) zero); [left | right]; now split.
Qed.

(** C7, as the code has it: for every moderate vector (components at
    most [2^60] in absolute value, one of them at least [2^-60]) the
    magnitude of the normalised form is 1 within the tolerance 0.0001,
    both as the program compares floats and as real numbers. *)
Theorem normalized_magnitude_one (v : Vec2D) :
  moderate v = true ->
  approx_one (GetMagnitude (GetNormalized v)) = true /\
  Rabs (SF2R (GetMagnitude (GetNormalized v)) - 1) < 1 / 10000.
Proof.
  intros Hv. split; [now apply moderate_approx_one|].
  destruct (GetNormalized_magnitude v Hv) as (_ & _ & Hn). lra.
Qed.

Lemma normalized_magnitude_one_witness :
  approx_one (GetMagnitude (GetNormalized (mkVec2D (of_Z 42) (of_Z (-12)))))
  = true /\
  Rabs (SF2R (GetMagnitude
                (GetNormalized (mkVec2D (of_Z 42) (of_Z (-12))))) - 1)
  < 1 / 10000.
Proof.
  apply (normalized_magnitude_one (mkVec2D (of_Z 42) (of_Z (-12)))).
  reflexivity.
Defined.

(** C7 as stated fails: [(2^-77, 0)] and [(2^103, 0)] are not zero, the
    square of the first underflows to 0 and the square of the second
    overflows, the normalised form of both is [(0,0)], of magnitude
    0. *)
Lemma normalized_magnitude_zero :
  neqb (m_x vec_tiny) zero = true /\
  valid (m_x vec_tiny) = true /\
  GetNormalized vec_tiny = mkVec2D zero zero /\
  GetMagnitude (GetNormalized vec_tiny) = zero /\
  approx_one (GetMagnitude (GetNormalized vec_tiny)) = false /\
  neqb (m_x vec_huge) zero = true /\
  valid (m_x vec_huge) = true /\
  GetMagnitude (GetNormalized vec_huge) = zero /\
  approx_one (GetMagnitude (GetNormalized vec_huge)) = false.
Proof. repeat split. Qed.

(** C8, as the code has it: for all vectors [a] and [b] with
    components of absolute value at most 256, [(a + b) - b] equals [a]
    under the approximate equality of [Vec2D]. *)
Theorem add_sub_inverse (a b : Vec2D) :
  vec_within (of_Z 256) a = true -> vec_within (of_Z 256) b = true ->
  vec_eq (vec_sub (vec_add a b) b) a = true.
Proof.
  unfold vec_within. intros Ha Hb.
  apply andb_true_iff in Ha. destruct Ha as [Hax Hay].
  apply andb_true_iff in Hb. destruct Hb as [Hbx Hby].
  unfold vec_eq, vec_sub, vec_add, GetX, GetY. simpl m_x. simpl m_y.
  now rewrite !add_sub_close.
Qed.

Lemma add_sub_inverse_witness :
  vec_eq (vec_sub (vec_add (mkVec2D (of_Z 5) (of_Z 5))
                           (mkVec2D (of_Z 42) (of_Z (-12))))
                  (mkVec2D (of_Z 42) (of_Z (-12))))
         (mkVec2D (of_Z 5) (of_Z 5)) = true.
Proof.
  apply (add_sub_inverse (mkVec2D (of_Z 5) (of_Z 5))
                         (mkVec2D (of_Z 42) (of_Z (-12)))); reflexivity.
Defined.

(** C8 as stated fails: [1 + 2^30] rounds to [2^30], so
    [((1,0) + (2^30,0)) - (2^30,0)] is [(0,0)], which differs from
    [(1,0)] by 1; and [0.1 + 1000000] rounds to [1000000.125], so
    [((0.1,0) + (1000000,0)) - (1000000,0)] is [(0.125,0)]. *)
Lemma add_sub_absorbed :
  vec_sub (vec_add (mkVec2D one zero) (mkVec2D (of_Z (2 ^ 30)) zero))
          (mkVec2D (of_Z (2 ^ 30)) zero)
  = mkVec2D zero zero /\
  vec_eq (vec_sub (vec_add (mkVec2D one zero)
                           (mkVec2D (of_Z (2 ^ 30)) zero))
                  (mkVec2D (of_Z (2 ^ 30)) zero))
         (mkVec2D one zero) = false /\
  vec_sub (vec_add (mkVec2D (of_dec 1 10) zero)
                   (mkVec2D (of_Z 1000000) zero))
          (mkVec2D (of_Z 1000000) zero)
  = mkVec2D (of_dec 125 1000) zero /\
  vec_eq (vec_sub (vec_add (mkVec2D (of_dec 1 10) zero)
                           (mkVec2D (of_Z 1000000) zero))
                  (mkVec2D (of_Z 1000000) zero))
         (mkVec2D (of_dec 1 10) zero) = false.
Proof. repeat split; reflexivity. Qed.

(** C9: with a field of view that is zero or negative (the constructor
    stores an absolute value, so a negative one comes from
    [SetFieldOfView]), [CanSeeTarget] is false for every target, for
    every [acosf] that never returns a negative number: the angular
    test is strict. *)
Theorem CanSeeTarget_nonpositive_fov (acosf : float -> float)
    (acosf_nonneg : forall x : float, ltb (acosf x) zero = false)
    (c : Camera2D) (t : Vec2D) :
  (leb (m_fieldOfView c) zero = true -> CanSeeTarget acosf c t = false) /\
  (forall angleRad : float,
      leb angleRad zero = true ->
      CanSeeTarget acosf (SetFieldOfView c angleRad) t = false).
Proof.
  assert (H : forall c' : Camera2D,
             leb (m_fieldOfView c') zero = true ->
             CanSeeTarget acosf c' t = false).
  { intros c' Hf. unfold CanSeeTarget.
    destruct (vec_eq t (m_position c')); trivial.
    destruct (leb _ (m_viewDistance c')); trivial.
    now apply half_nonpositive. }
  split; [apply H|]. intros a Ha. now apply H.
Qed.

Lemma CanSeeTarget_nonpositive_fov_witness :
  CanSeeTarget (fun _ => zero)
               (Camera2D_new vec0 (mkVec2D zero one) zero (of_Z 100))
               vec8 = false /\
  CanSeeTarget (fun _ => zero) (SetFieldOfView cam0 (SFopp one)) vec8
  = false.
Proof.
  split.
  - apply (proj1 (CanSeeTarget_nonpositive_fov (fun _ => zero)
                    (fun _ => eq_refl) _ vec8)).
    reflexivity.
  - apply (proj2 (CanSeeTarget_nonpositive_fov (fun _ => zero)
                    (fun _ => eq_refl) cam0 vec8)).
    reflexivity.
Defined.




End Claims.

(** * Further properties of the code *)

(** ** Symmetries of the vector operations *)

Lemma mul_comm (x y : float) : mul x y = mul y x.
Proof.
  destruct x as [sx|sx| |sx mx ex], y as [sy|sy| |sy my ey];
    unfold mul, SFmul; trivial; try (now rewrite (xorb_comm sx sy)).
  now rewrite (xorb_comm sx sy), Pos.mul_comm, Z.add_comm.
Qed.

Lemma add_comm (x y : float) : add x y = add y x.
Proof.
  destruct x as [sx|sx| |sx mx ex], y as [sy|sy| |sy my ey];
    unfold add, SFadd; trivial; try (now destruct sx, sy).
  now rewrite Z.add_comm, Z.min_comm.
Qed.

(** The dot product is commutative: both orders give the same float
    (the same number with the same sign of zero, or the same infinity),
    and one is NaN exactly when the other is. *)
Theorem DotProduct_comm (a b : Vec2D) : DotProduct a b = DotProduct b a.
Proof.
  unfold DotProduct, GetX, GetY.
  now rewrite (mul_comm (m_x a)), (mul_comm (m_y a)).
Qed.

(** [operator+] is commutative: both orders give the same components
    (the same number with the same sign of zero, or the same infinity),
    and a component is NaN in one exactly when it is in the other. *)
Theorem vec_add_comm (a b : Vec2D) : vec_add a b = vec_add b a.
Proof.
  unfold vec_add, GetX, GetY.
  now rewrite (add_comm (m_x a)), (add_comm (m_y a)).
Qed.

Lemma abs_round_aux (s s' : bool) (m e : Z) (l : location) :
  abs (binary_round_aux prec emax s m e l)
  = abs (binary_round_aux prec emax s' m e l).
Proof.
  unfold binary_round_aux.
  destruct (shr_fexp prec emax m e l) as [mrs' e'].
  destruct (shr_fexp prec emax _ e' loc_Exact) as [mrs'' e''].
  destruct (shr_m mrs''); trivial.
  now destruct (e'' <=? emax - prec).
Qed.

Lemma abs_normalize_opp (z e : Z) :
  abs (binary_normalize prec emax (- z) e false)
  = abs (binary_normalize prec emax z e false).
Proof.
  destruct z as [|p|p]; simpl; trivial; unfold binary_round;
    destruct (shl_align p e _) as [mz ez]; apply abs_round_aux.
Qed.

Lemma abs_sub_swap (x y : float) : abs (sub x y) = abs (sub y x).
Proof.
  destruct x as [sx|sx| |sx mx ex], y as [sy|sy| |sy my ey];
    unfold sub, SFsub; trivial; try (now destruct sx, sy).
  rewrite (Z.min_comm ey ex).
  rewrite <- abs_normalize_opp. f_equal. f_equal. lia.
Qed.

(** [operator==] is symmetric: [a == b] and [b == a] give the same
    answer for all vectors. *)
Theorem vec_eq_sym (a b : Vec2D) : vec_eq a b = vec_eq b a.
Proof.
  unfold vec_eq, GetX, GetY.
  now rewrite (abs_sub_swap (m_x a)), (abs_sub_swap (m_y a)).
Qed.

Lemma sub_self (x : float) :
  sub x x = if is_finite x then zero else S754_nan.
Proof.
  destruct x as [s|s| |s m e]; unfold sub, SFsub, is_finite; trivial;
    try (now destruct s).
  now rewrite Z.sub_diag.
Qed.

(** [v == v] holds exactly when both components of [v] are finite: a
    vector with an infinite or NaN component is not equal to itself.
    For a finite [v], [v - v] is [(+0, +0)]. *)
Theorem vec_eq_refl_iff (v : Vec2D) :
  vec_eq v v = is_finite (m_x v) && is_finite (m_y v) /\
  (is_finite (m_x v) && is_finite (m_y v) = true ->
   vec_sub v v = mkVec2D zero zero).
Proof.
  unfold vec_eq, vec_sub, GetX, GetY. rewrite !sub_self.
  destruct (is_finite (m_x v)), (is_finite (m_y v)); split;
    try reflexivity; discriminate.
Qed.

Lemma mul_opp_opp (x : float) : mul (SFopp x) (SFopp x) = mul x x.
Proof.
  destruct x as [s|s| |s m e]; unfold mul, SFmul, SFopp; trivial;
    now destruct s.
Qed.

Lemma GetMagnitude_opp_x (x y : float) :
  GetMagnitude (mkVec2D (SFopp x) y) = GetMagnitude (mkVec2D x y).
Proof. unfold GetMagnitude; simpl m_x; simpl m_y. now rewrite mul_opp_opp. Qed.

(** The magnitude does not change when a component changes sign or
    when the components are exchanged: the same float, and NaN in one
    case exactly when in the other. *)
Theorem GetMagnitude_symmetries (x y : float) :
  GetMagnitude (mkVec2D (SFopp x) y) = GetMagnitude (mkVec2D x y) /\
  GetMagnitude (mkVec2D x (SFopp y)) = GetMagnitude (mkVec2D x y) /\
  GetMagnitude (mkVec2D y x) = GetMagnitude (mkVec2D x y).
Proof.
  unfold GetMagnitude; simpl m_x; simpl m_y.
  rewrite !mul_opp_opp. repeat split. now rewrite add_comm.
Qed.

(** ** The magnitude, and inputs that are not finite numbers *)

Lemma shr_fexp_nonneg (m e : Z) (l : location) :
  0 <= m -> 0 <= shr_m (fst (shr_fexp prec emax m e l)).
Proof.
  intros Hm. unfold shr_fexp, shr.
  destruct (fexp prec emax (Zdigits2 m + e) - e) as [|p|p]; simpl fst;
    rewrite ?iter_pos_shr_m by (now rewrite shr_m_of_loc);
    rewrite shr_m_of_loc; trivial.
  apply Z.div_pos; [trivial|]. apply Z.pow_pos_nonneg; lia.
Qed.

Lemma round_aux_not_nan (s : bool) (m e : Z) (l : location) :
  0 <= m -> is_nan (binary_round_aux prec emax s m e l) = false.
Proof.
  intros Hm. unfold binary_round_aux.
  pose proof (shr_fexp_nonneg m e l Hm) as H1.
  destruct (shr_fexp prec emax m e l) as [mrs' e']. simpl fst in H1.
  pose proof (round_nearest_even_range (shr_m mrs') (loc_of_shr_record mrs'))
    as [[H2 _] _].
  pose proof (shr_fexp_nonneg
                (round_nearest_even (shr_m mrs') (loc_of_shr_record mrs'))
                e' loc_Exact ltac:(lia)) as H3.
  destruct (shr_fexp prec emax _ e' loc_Exact) as [mrs'' e'']. simpl fst in H3.
  destruct (shr_m mrs''); trivial; [|lia].
  now destruct (e'' <=? emax - prec).
Qed.

Lemma round_aux_signbit (s : bool) (m e : Z) (l : location) :
  0 <= m -> signbit (binary_round_aux prec emax s m e l) = s.
Proof.
  intros Hm. pose proof (round_aux_not_nan s m e l Hm) as Hn.
  pose proof (binary_round_aux_sign s m e l) as Hs.
  now destruct (binary_round_aux prec emax s m e l).
Qed.

Lemma mul_self_facts (x : float) :
  signbit (mul x x) = false /\ is_nan (mul x x) = is_nan x.
Proof.
  destruct x as [s|s| |s m e]; try (now destruct s); try (now split).
  unfold mul, SFmul. rewrite xorb_nilpotent.
  split; [apply round_aux_signbit | apply round_aux_not_nan]; lia.
Qed.

Lemma binary_round_facts (s : bool) (m : positive) (e : Z) :
  signbit (binary_round prec emax s m e) = s /\
  is_nan (binary_round prec emax s m e) = false.
Proof.
  unfold binary_round. destruct (shl_align m e _) as [mz ez].
  split; [apply round_aux_signbit | apply round_aux_not_nan]; lia.
Qed.

Lemma add_nonneg_facts (a b : float) :
  signbit a = false -> signbit b = false ->
  signbit (add a b) = false /\ is_nan (add a b) = is_nan a || is_nan b.
Proof.
  destruct a as [sa|sa| |sa ma ea], b as [sb|sb| |sb mb eb]; simpl;
    intros Ha Hb; subst; try (now split).
  unfold add, SFadd, cond_Zopp.
  destruct (shl_align ma ea (Z.min ea eb)) as [ma' ea'].
  destruct (shl_align mb eb (Z.min ea eb)) as [mb' eb'].
  simpl fst. simpl binary_normalize. apply binary_round_facts.
Qed.

Lemma sqrtf_facts (x : float) :
  signbit x = false ->
  signbit (sqrtf x) = false /\ is_nan (sqrtf x) = is_nan x.
Proof.
  destruct x as [s|s| |s m e]; simpl; intros H; subst; try (now split).
  unfold sqrtf, SFsqrt, SFsqrt_core_binary.
  set (m' := match _ - _ with 0 => _ | Z.pos _ => _ | Z.neg _ => _ end).
  pose proof (Z.sqrtrem_spec m') as Hs.
  assert (Hm' : 0 <= m').
  { unfold m'. destruct (e - _) as [|p|p]; try lia.
    rewrite Z.shiftl_mul_pow2 by lia.
    assert (0 < 2 ^ Z.pos p) by (apply Z.pow_pos_nonneg; lia). nia. }
  specialize (Hs Hm'). destruct (Z.sqrtrem m') as [q r].
  split; [apply round_aux_signbit | apply round_aux_not_nan]; lia.
Qed.

Lemma sqrtf_valid (x : float) : valid (sqrtf x) = true.
Proof.
  destruct x as [s|[|]| |[|] m e]; trivial.
  unfold sqrtf, SFsqrt.
  assert (Hpos : (0 <= IZR (Z.pos m) * bpow e)%R).
  { apply Rmult_le_pos; [apply IZR_le; lia | apply Rlt_le, bpow_gt_0]. }
  pose proof (sqrt_core_spec m e (sqrt (IZR (Z.pos m) * bpow e))
                (sqrt_pos _) (sqrt_sqrt _ Hpos)) as Hc.
  destruct (SFsqrt_core_binary prec emax (Z.pos m) e) as [[q e'] l].
  destruct Hc as (Hq & Hk & Hv).
  exact (round_result_valid _ _ (round_aux_result false q e' l _ Hq Hk Hv)).
Qed.

Lemma GetMagnitude_facts (v : Vec2D) :
  signbit (GetMagnitude v) = false /\
  ltb (GetMagnitude v) zero = false /\
  is_nan (GetMagnitude v) = is_nan (m_x v) || is_nan (m_y v) /\
  valid (GetMagnitude v) = true.
Proof.
  unfold GetMagnitude.
  destruct (mul_self_facts (m_x v)) as [Sx Nx].
  destruct (mul_self_facts (m_y v)) as [Sy Ny].
  destruct (add_nonneg_facts _ _ Sx Sy) as [Ss Ns].
  destruct (sqrtf_facts _ Ss) as [Sm Nm].
  rewrite Nm, Ns, Nx, Ny. repeat split; trivial; [|apply sqrtf_valid].
  revert Sm. generalize (sqrtf (add (mul (m_x v) (m_x v)) (mul (m_y v) (m_y v)))).
  intros [[|]|[|]| |[|] m e]; simpl; intros H; try discriminate H;
    reflexivity.
Qed.

(** The magnitude is never negative, not even a negative zero; it is a
    NaN exactly when a component is; it is always a float of the type,
    whatever the components. *)
Theorem GetMagnitude_range (v : Vec2D) :
  signbit (GetMagnitude v) = false /\
  ltb (GetMagnitude v) zero = false /\
  is_nan (GetMagnitude v) = is_nan (m_x v) || is_nan (m_y v) /\
  valid (GetMagnitude v) = true.
Proof. exact (GetMagnitude_facts v). Qed.

(** [SetViewDistance] stores its argument as it is, without the
    [std::abs] of the constructor, and changes nothing else; with a
    negative or NaN view distance the camera sees nothing. *)
Theorem CanSeeTarget_bad_view_distance (acosf : float -> float)
    (c : Camera2D) (distance : float) (t : Vec2D) :
  SetViewDistance c distance
  = mkCamera2D (m_position c) (m_orientation c) (m_fieldOfView c) distance /\
  m_viewDistance (SetViewDistance c distance) = distance /\
  (ltb distance zero = true \/ is_nan distance = true ->
   CanSeeTarget acosf (SetViewDistance c distance) t = false).
Proof.
  split; [reflexivity|]. split; [reflexivity|].
  intros Hd. unfold CanSeeTarget. simpl m_position. simpl m_viewDistance.
  destruct (vec_eq t (m_position c)); trivial.
  destruct (GetMagnitude_facts (vec_sub t (m_position c))) as (Hs & _).
  assert (Hle : leb (GetMagnitude (vec_sub t (m_position c))) distance
                = false).
  { revert Hs. generalize (GetMagnitude (vec_sub t (m_position c))).
    intros d Hs.
    destruct distance as [sd|[|]| |[|] md ed];
      destruct Hd as [Hd | Hd]; try discriminate Hd;
      destruct d as [[|]|[|]| |[|] m e]; simpl in Hs; try discriminate Hs;
      reflexivity. }
  now rewrite Hle.
Qed.

Lemma CanSeeTarget_bad_view_distance_witness :
  m_viewDistance (SetViewDistance cam0 (of_Z (-100))) = of_Z (-100) /\
  CanSeeTarget acosf_table cam0 vec8 = true /\
  CanSeeTarget acosf_table (SetViewDistance cam0 (of_Z (-100))) vec8 = false.
Proof.
  split; [reflexivity|]. split; [reflexivity|].
  apply (proj2 (proj2 (CanSeeTarget_bad_view_distance acosf_table cam0
                         (of_Z (-100)) vec8))).
  left. reflexivity.
Defined.

Lemma sub_not_finite (x y : float) :
  is_finite x = false ->
  sub x y = S754_nan \/ exists s, sub x y = S754_infinity s.
Proof.
  destruct x as [sx|sx| |sx mx ex]; try discriminate; intros _;
    destruct y as [sy|sy| |sy my ey]; simpl; eauto.
  destruct sx, sy; eauto.
Qed.

Lemma mul_self_not_finite (x : float) :
  x = S754_nan \/ (exists s, x = S754_infinity s) ->
  mul x x = S754_nan \/ mul x x = S754_infinity false.
Proof. intros [-> | [s ->]]; [now left | right; now destruct s]. Qed.

Lemma add_not_finite_l (a b : float) :
  a = S754_nan \/ a = S754_infinity false ->
  add a b = S754_nan \/ add a b = S754_infinity false.
Proof.
  intros [-> | ->]; [now left|].
  destruct b as [sb|[|]| |sb mb eb]; simpl; auto.
Qed.

Lemma magnitude_not_finite (x y : float) :
  (x = S754_nan \/ (exists s, x = S754_infinity s)) \/
  (y = S754_nan \/ (exists s, y = S754_infinity s)) ->
  GetMagnitude (mkVec2D x y) = S754_nan \/
  GetMagnitude (mkVec2D x y) = S754_infinity false.
Proof.
  intros H. unfold GetMagnitude. simpl m_x. simpl m_y.
  assert (Hs : add (mul x x) (mul y y) = S754_nan \/
               add (mul x x) (mul y y) = S754_infinity false).
  { destruct H as [H | H].
    - apply add_not_finite_l. now apply mul_self_not_finite.
    - rewrite add_comm. apply add_not_finite_l.
      now apply mul_self_not_finite. }
  destruct Hs as [-> | ->]; auto.
Qed.

(** A target with a coordinate that is infinite or not a number is
    never seen by a camera whose view distance is finite. *)
Theorem CanSeeTarget_target_not_finite (acosf : float -> float)
    (c : Camera2D) (t : Vec2D) :
  is_finite (m_x t) && is_finite (m_y t) = false ->
  is_finite (m_viewDistance c) = true ->
  CanSeeTarget acosf c t = false.
Proof.
  intros Ht Hvd. unfold CanSeeTarget.
  destruct (vec_eq t (m_position c)); trivial.
  assert (Hm : GetMagnitude (vec_sub t (m_position c)) = S754_nan \/
               GetMagnitude (vec_sub t (m_position c)) = S754_infinity false).
  { unfold vec_sub. apply magnitude_not_finite.
    apply andb_false_iff in Ht. destruct Ht as [Ht | Ht];
      [left | right]; now apply sub_not_finite. }
  destruct Hm as [-> | ->]; trivial.
  now destruct (m_viewDistance c).
Qed.

Lemma CanSeeTarget_target_not_finite_witness :
  CanSeeTarget acosf_zero cam0 (mkVec2D zero (S754_infinity false)) = false.
Proof.
  apply (CanSeeTarget_target_not_finite acosf_zero cam0
           (mkVec2D zero (S754_infinity false))); reflexivity.
Defined.

(** ** Mirror symmetry *)

Lemma sub_zero_r (x : float) : sub x zero = x.
Proof. now destruct x as [[|]|[|]| |s m e]. Qed.

Lemma abs_opp (x : float) : abs (SFopp x) = abs x.
Proof. now destruct x. Qed.

Lemma mul_zero_opp (o x : float) :
  is_zero o = true -> same_or_zeros (mul o (SFopp x)) (mul o x).
Proof.
  destruct o as [so| | |]; try discriminate. intros _.
  destruct x as [s|s| |s m e]; simpl; try (now left); right; now split.
Qed.

Lemma add_same_or_zeros (a a' b : float) :
  same_or_zeros a a' -> same_or_zeros (add a b) (add a' b).
Proof.
  intros [-> | [Ha Ha']]; [now left|].
  destruct a as [[|]| | |]; try discriminate;
    destruct a' as [[|]| | |]; try discriminate;
    destruct b as [[|]|sb| |sb mb eb]; simpl;
    try (now left); right; now split.
Qed.

Lemma div_same_or_zeros (a a' d : float) :
  same_or_zeros a a' -> same_or_zeros (div a d) (div a' d).
Proof.
  intros [-> | [Ha Ha']]; [now left|].
  destruct a as [sa| | |]; try discriminate;
    destruct a' as [sa'| | |]; try discriminate;
    destruct d as [sd|sd| |sd md ed]; simpl;
    try (now left); right; now split.
Qed.

Lemma acosf_same_or_zeros (acosf : float -> float) (a a' : float) :
  acosf (S754_zero true) = acosf (S754_zero false) ->
  same_or_zeros a a' -> acosf a = acosf a'.
Proof.
  intros H [-> | [Ha Ha']]; trivial.
  destruct a as [[|]| | |]; try discriminate;
    destruct a' as [[|]| | |]; try discriminate; congruence.
Qed.

(** A camera on the y axis that looks along it ([m_position.x] is 0 and
    [m_orientation.x] is a zero) gives the same answer for a target and
    for its mirror image [(-x, y)]. *)
Theorem CanSeeTarget_mirror (acosf : float -> float) (c : Camera2D)
    (t : Vec2D) :
  acosf (S754_zero true) = acosf (S754_zero false) ->
  m_x (m_position c) = zero ->
  is_zero (m_x (m_orientation c)) = true ->
  CanSeeTarget acosf c (SetX t (SFopp (GetX t))) = CanSeeTarget acosf c t.
Proof.
  intros Hacos Hp Ho. unfold CanSeeTarget, vec_eq, vec_sub, SetX, GetX, GetY.
  simpl m_x. simpl m_y. rewrite Hp, !sub_zero_r, abs_opp.
  rewrite GetMagnitude_opp_x.
  unfold DotProduct, GetX, GetY. simpl m_x. simpl m_y.
  set (d := GetMagnitude _). set (b := mul (m_y (m_orientation c)) _).
  rewrite (acosf_same_or_zeros acosf
             (div (add (mul (m_x (m_orientation c)) (SFopp (m_x t))) b) d)
             (div (add (mul (m_x (m_orientation c)) (m_x t)) b) d));
    trivial.
  apply div_same_or_zeros, add_same_or_zeros. now apply mul_zero_opp.
Qed.

Lemma CanSeeTarget_mirror_witness :
  CanSeeTarget acosf_main cam0 vec14 = CanSeeTarget acosf_main cam0 vec12.
Proof.
  apply (CanSeeTarget_mirror acosf_main cam0 vec12); reflexivity.
Defined.

(** ** The view distance *)

Lemma leb_trans (x y z : float) :
  valid x = true -> valid y = true -> valid z = true ->
  leb x y = true -> leb y z = true -> leb x z = true.
Proof.
  intros Vx Vy Vz Hxy Hyz.
  destruct (is_finite x) eqn:Fx, (is_finite y) eqn:Fy, (is_finite z) eqn:Fz;
    try (destruct x as [sx|[|]| |sx mx ex]; try discriminate Fx;
         destruct y as [sy|[|]| |sy my ey]; try discriminate Fy;
         destruct z as [sz|[|]| |sz mz ez]; try discriminate Fz;
         try discriminate Hxy; try discriminate Hyz;
         try destruct sx; try destruct sy; try destruct sz;
         try discriminate Hxy; try discriminate Hyz; reflexivity).
  apply leb_R in Hxy, Hyz; trivial. apply leb_R; trivial.
  apply Rle_trans with (SF2R y); trivial.
Qed.

Lemma ltb_leb_trans (x y z : float) :
  valid x = true -> valid y = true -> valid z = true ->
  ltb x y = true -> leb y z = true -> ltb x z = true.
Proof.
  intros Vx Vy Vz Hxy Hyz.
  destruct (is_finite x) eqn:Fx, (is_finite y) eqn:Fy, (is_finite z) eqn:Fz;
    try (destruct x as [sx|[|]| |sx mx ex]; try discriminate Fx;
         destruct y as [sy|[|]| |sy my ey]; try discriminate Fy;
         destruct z as [sz|[|]| |sz mz ez]; try discriminate Fz;
         try discriminate Hxy; try discriminate Hyz;
         try destruct sx; try destruct sy; try destruct sz;
         try discriminate Hxy; try discriminate Hyz; reflexivity).
  apply ltb_R in Hxy; trivial. apply leb_R in Hyz; trivial.
  apply ltb_R; trivial.
  apply Rlt_le_trans with (SF2R y); trivial.
Qed.

(** Raising the view distance never hides a target. *)
Theorem CanSeeTarget_view_distance_mono (acosf : float -> float)
    (c : Camera2D) (t : Vec2D) (d d' : float) :
  valid d = true -> valid d' = true -> leb d d' = true ->
  CanSeeTarget acosf (SetViewDistance c d) t = true ->
  CanSeeTarget acosf (SetViewDistance c d') t = true.
Proof.
  intros Vd Vd' Hle. unfold CanSeeTarget. simpl.
  destruct (vec_eq t (m_position c)); trivial.
  destruct (GetMagnitude_facts (vec_sub t (m_position c))) as (_ & _ & _ & Vm).
  destruct (leb (GetMagnitude (vec_sub t (m_position c))) d) eqn:E;
    [|discriminate].
  now rewrite (leb_trans _ _ _ Vm Vd Vd' E Hle).
Qed.

Lemma CanSeeTarget_view_distance_mono_witness :
  CanSeeTarget acosf_main (SetViewDistance cam0 (of_Z 1000)) vec13 = true.
Proof.
  apply (CanSeeTarget_view_distance_mono acosf_main cam0 vec13
           (of_Z 100) (of_Z 1000)); reflexivity.
Defined.

Section DefaultRange.

Local Open Scope R_scope.

Lemma SF2R_FLT_MAX : SF2R FLT_MAX = 16777215 * bpow 104.
Proof. now rewrite FLT_MAX_bits. Qed.

Lemma finite_le_FLT_MAX (d : float) :
  valid d = true -> is_finite d = true -> leb d FLT_MAX = true.
Proof.
  intros Vd Fd. apply leb_R; trivial. rewrite SF2R_FLT_MAX.
  pose proof (bpow_gt_0 104) as H104.
  destruct d as [s|s| |s m e]; try discriminate Fd.
  - simpl. lra.
  - destruct (valid_finite_facts _ _ _ Vd) as (Hd & He & _).
    pose proof (Zdigits2_bounds (Z.pos m) ltac:(lia)) as [_ Hm].
    assert (Hm24 : (Z.pos m <= 16777215)%Z).
    { assert (2 ^ Zdigits2 (Z.pos m) <= 2 ^ 24)%Z
        by (apply Z.pow_le_mono_r; lia).
      change (2 ^ 24)%Z with 16777216%Z in *. lia. }
    apply IZR_le in Hm24.
    assert (Hb : bpow e <= bpow 104) by (apply bpow_le; lia).
    pose proof (bpow_gt_0 e).
    assert (0 < IZR (Z.pos m)) by (apply IZR_lt; lia).
    rewrite SF2R_finite. unfold sgnR. destruct s.
    + nra.
    + apply Rmult_le_compat; lra.
Qed.

End DefaultRange.

(** With the constructor's default view distance,
    [std::numeric_limits<float>::max()], the range check excludes no
    target whose computed distance is finite: for a target that
    [operator==] tells apart from the camera's position, the answer is
    the angular test.  (A target that [operator==] does not tell apart
    from the position is not seen, whatever the angle.) *)
Theorem default_view_distance (acosf : float -> float) (p o : Vec2D)
    (f : float) (t : Vec2D) :
  vec_eq t p = false ->
  is_finite (GetMagnitude (vec_sub t p)) = true ->
  CanSeeTarget acosf (Camera2D_new p o f FLT_MAX) t
  = ltb (angleToTarget acosf (Camera2D_new p o f FLT_MAX) t)
        (div (abs f) two).
Proof.
  intros Hne Fd.
  unfold CanSeeTarget, angleToTarget, Camera2D_new, SetOrientation.
  cbn [m_position m_viewDistance m_fieldOfView m_orientation].
  rewrite Hne.
  destruct (GetMagnitude_facts (vec_sub t p)) as (_ & _ & _ & Vm).
  change (abs FLT_MAX) with FLT_MAX.
  now rewrite (finite_le_FLT_MAX _ Vm Fd).
Qed.

Lemma default_view_distance_witness :
  CanSeeTarget acosf_table
    (Camera2D_new vec0 (mkVec2D zero one) PI_F FLT_MAX)
    (mkVec2D zero (of_Z 1000000))
  = true.
Proof.
  rewrite (default_view_distance acosf_table vec0 (mkVec2D zero one) PI_F
             (mkVec2D zero (of_Z 1000000))); reflexivity.
Defined.

(** ** The angular test *)

Lemma div_finite_facts (sx sy : bool) (mx my : positive) (ex ey : Z) :
  signbit (div (S754_finite sx mx ex) (S754_finite sy my ey)) = xorb sx sy /\
  is_nan (div (S754_finite sx mx ex) (S754_finite sy my ey)) = false.
Proof.
  unfold div, SFdiv.
  pose proof (div_core_spec mx my ex ey) as Hc.
  destruct (SFdiv_core_binary prec emax (Z.pos mx) ex (Z.pos my) ey)
    as [[q e'] l].
  destruct Hc as (Hq & _).
  split; [now apply round_aux_signbit | now apply round_aux_not_nan].
Qed.

Lemma ltb_false_leb (x y : float) :
  is_nan x = false -> is_nan y = false -> ltb x y = false -> leb y x = true.
Proof.
  unfold ltb, leb, SFltb, SFleb. rewrite (SFcompare_antisym x y).
  destruct x, y; try discriminate; intros _ _;
    destruct (SFcompare _ _) as [[ | | ]|] eqn:E; simpl; try congruence;
    simpl in E; discriminate E.
Qed.

Lemma leb_not_ltb (x y : float) : leb x y = true -> ltb y x = false.
Proof.
  unfold ltb, leb, SFltb, SFleb. rewrite (SFcompare_antisym x y).
  destruct (SFcompare x y) as [[ | | ]|]; simpl; congruence.
Qed.

Lemma leb_not_nan (x y : float) :
  leb x y = true -> is_nan x = false /\ is_nan y = false.
Proof. destruct x, y; try discriminate; now split. Qed.

Lemma div_two_facts (f : float) :
  valid f = true -> is_nan f = false ->
  valid (div f two) = true /\ is_nan (div f two) = false.
Proof.
  intros Vf Nf. destruct f as [s|s| |s m e]; try discriminate Nf;
    try (now split).
  rewrite two_bits. split; [|apply div_finite_facts].
  rewrite <- two_bits.
  apply (round_result_valid _ _
           (div_spec (S754_finite s m e) two Vf eq_refl eq_refl eq_refl
              ltac:(rewrite SF2R_two; lra))).
Qed.

(** A ratio [dot / distance] with a dot product that is not positive
    is not positive. *)
Lemma ratio_not_positive (dot d : float) :
  leb dot zero = true -> signbit d = false ->
  ltb zero (div dot d) = false.
Proof.
  intros Hdot Hd.
  destruct dot as [s|[|]| |[|] m e]; try discriminate Hdot;
    destruct d as [sd|sd| |sd md ed]; simpl in Hd; subst;
    try reflexivity.
  destruct (div_finite_facts true false m md e ed) as [Hs Hn].
  destruct (div (S754_finite true m e) (S754_finite false md ed))
    as [[|]|[|]| |[|] m' e']; try discriminate Hs; try discriminate Hn;
    reflexivity.
Qed.

(** A camera whose field of view is at most [pi_f] does not see a
    target beside or behind it (dot product with the orientation not
    positive), for every [acosf] that is never below [pio2_f] on an
    argument that is not positive. *)
Theorem CanSeeTarget_not_in_front (acosf : float -> float)
    (c : Camera2D) (t : Vec2D) :
  (forall x : float,
      ltb zero x = false ->
      valid (acosf x) = true /\ ltb (acosf x) pio2_f = false) ->
  valid (m_fieldOfView c) = true ->
  leb (m_fieldOfView c) pi_f = true ->
  leb (DotProduct (m_orientation c) (vec_sub t (m_position c))) zero = true ->
  CanSeeTarget acosf c t = false.
Proof.
  intros Hacos Vf Hf Hdot. unfold CanSeeTarget.
  destruct (vec_eq t (m_position c)); trivial.
  destruct (leb _ (m_viewDistance c)); trivial.
  destruct (GetMagnitude_facts (vec_sub t (m_position c))) as (Hs & _).
  pose proof (ratio_not_positive _ _ Hdot Hs) as Hr.
  destruct (Hacos _ Hr) as [Va Ha].
  set (a := acosf _) in *. set (h := div (m_fieldOfView c) two).
  destruct (leb_not_nan _ _ Hf) as [Nf _].
  destruct (div_two_facts _ Vf Nf) as [Vh Nh]. fold h in Vh, Nh.
  assert (Hh : leb h pio2_f = true).
  { apply ltb_false_leb; trivial. unfold h.
    rewrite half_fov_test by trivial. now apply leb_not_ltb. }
  destruct (ltb a h) eqn:E; trivial.
  rewrite (ltb_leb_trans a h pio2_f Va Vh eq_refl E Hh) in Ha.
  discriminate Ha.
Qed.

Lemma CanSeeTarget_not_in_front_witness :
  CanSeeTarget acosf_zero cam0 vec9 = false /\
  CanSeeTarget acosf_zero cam0 vec10 = false /\
  CanSeeTarget acosf_zero cam0 vec11 = false.
Proof.
  split; [|split];
    apply (CanSeeTarget_not_in_front acosf_zero cam0);
    try reflexivity; intros x _; split; reflexivity.
Defined.

(** The argument of [acosf] can exceed 1: for a camera at the origin
    built with the orientation [(1, 4)] and the target [(1, 4)],
    straight ahead, [dot / distanceToTarget] is [1 + 2^-23].  With an
    [acosf] that returns NaN above 1, the target is not seen, whatever
    the field of view. *)
Theorem CanSeeTarget_ratio_above_one (acosf : float -> float)
    (fieldOfView : float) :
  (forall x : float, ltb one x = true -> acosf x = S754_nan) ->
  let c := Camera2D_new vec0 vec_1_4 fieldOfView (of_Z 100) in
  div (DotProduct (m_orientation c) (vec_sub vec_1_4 (m_position c)))
      (GetMagnitude (vec_sub vec_1_4 (m_position c)))
  = S754_finite false 8388609 (-23) /\
  CanSeeTarget acosf c vec_1_4 = false.
Proof.
  intros Hacos c. split; [reflexivity|].
  unfold CanSeeTarget, c, Camera2D_new, SetOrientation.
  cbn [m_position m_viewDistance m_fieldOfView m_orientation].
  change (vec_eq vec_1_4 vec0) with false.
  change (leb (GetMagnitude (vec_sub vec_1_4 vec0)) (abs (of_Z 100)))
    with true.
  cbv beta iota zeta.
  change (div (DotProduct (GetNormalized vec_1_4) (vec_sub vec_1_4 vec0))
              (GetMagnitude (vec_sub vec_1_4 vec0)))
    with (S754_finite false 8388609 (-23)).
  now rewrite Hacos.
Qed.

Lemma CanSeeTarget_ratio_above_one_witness :
  CanSeeTarget (fun x => if ltb one x then S754_nan else zero)
               (Camera2D_new vec0 vec_1_4 PI_F (of_Z 100)) vec_1_4 = false.
Proof.
  apply (CanSeeTarget_ratio_above_one
           (fun x => if ltb one x then S754_nan else zero) PI_F).
  intros x H. now rewrite H.
Defined.

(** [operator==] is not transitive: [(0, 0) == (0.00009, 0)] and
    [(0.00009, 0) == (0.00018, 0)], but [(0, 0)] and [(0.00018, 0)]
    differ. *)
Theorem vec_eq_not_transitive :
  exists a b c : Vec2D,
    vec_eq a b = true /\ vec_eq b c = true /\ vec_eq a c = false.
Proof.
  exists vec0, (mkVec2D (of_dec 9 100000) zero),
    (mkVec2D (of_dec 18 100000) zero).
  repeat split.
Qed.

(** ** Subtraction then addition, and the camera tests of [main] *)

Section SubAdd.

Local Open Scope R_scope.

(** One component of [(a - b) + b == a] *)
Lemma sub_add_close (x y : float) :
  within (of_Z 256) x = true -> within (of_Z 256) y = true ->
  gtb MAX_FLOAT_TOLERANCE (abs (sub (add (sub x y) y) x)) = true.
Proof.
  intros Hx Hy.
  destruct (within_facts (of_Z 256) x eq_refl eq_refl Hx) as (Vx & Fx & Bx).
  destruct (within_facts (of_Z 256) y eq_refl eq_refl Hy) as (Vy & Fy & By).
  rewrite SF2R_256 in Bx, By.
  apply Rabs_le_inv in Bx. apply Rabs_le_inv in By.
  pose proof bpow_m23 as Hu. pose proof bpow_m149_le as Heta.
  pose proof (bpow_gt_0 (-149)) as Heta0. pose proof bpow_127_ge as Hbig.
  (* r1 = x - y *)
  pose proof (sub_spec x y Vx Vy Fx Fy) as H1.
  assert (B1 : Rabs (SF2R x - SF2R y) <= 512) by (apply Rabs_le; lra).
  apply round_result_small in H1; [|lra].
  pose proof (rounded_err _ _ _ H1 B1) as E1.
  destruct H1 as (V1 & F1 & _).
  set (r1 := sub x y) in *.
  (* r2 = r1 + y *)
  pose proof (add_spec r1 y V1 Vy F1 Fy) as H2.
  assert (B2 : Rabs (SF2R r1 + SF2R y) <= 257) by (apply Rabs_le; lra).
  apply round_result_small in H2; [|lra].
  pose proof (rounded_err _ _ _ H2 B2) as E2.
  destruct H2 as (V2 & F2 & _).
  set (r2 := add r1 y) in *.
  (* d = r2 - x *)
  pose proof (sub_spec r2 x V2 Vx F2 Fx) as H3.
  assert (B3 : Rabs (SF2R r2 - SF2R x) <= 92 / 1000000) by (apply Rabs_le; lra).
  apply round_result_small in H3; [|lra].
  pose proof (rounded_err _ _ _ H3 B3) as E3.
  destruct H3 as (V3 & F3 & _).
  set (d := sub r2 x) in *.
  unfold gtb. apply ltb_R; trivial.
  - now rewrite abs_valid.
  - now rewrite abs_finite.
  - rewrite abs_R, SF2R_tolerance. apply Rabs_def1; lra.
Qed.

End SubAdd.

Section MainTrace.

Local Open Scope R_scope.

Lemma SF2R_minus_one : SF2R (of_Z (-1)) = -1.
Proof.
  change (of_Z (-1)) with (S754_finite true 8388608 (-23)).
  unfold SF2R. simpl cond_Zopp. rewrite bpow_Zneg.
  change (2 ^ 23)%Z with 8388608%Z. lra.
Qed.

Lemma acos_minus_one : acos (-1) = PI.
Proof. replace (-1) with (Ropp 1) by lra. rewrite acos_opp, acos_1. lra. Qed.

Lemma SF2R_half_fov0 : SF2R half_fov0 = 13176784 / 16777216.
Proof. unfold half_fov0. now rewrite SF2R_num. Qed.

(** On the arguments [1], [-1] and [0], which [main] reaches with the
    targets ahead, behind and beside the camera *)
Lemma ahead_below (acosf : float -> float) :
  acosf_accurate acosf one -> ltb (acosf one) half_fov0 = true.
Proof.
  intros (Hv & Hf & He). apply ltb_R; trivial.
  rewrite SF2R_half_fov0. rewrite SF2R_one, acos_1, bpow_m22 in He.
  apply Rabs_le_inv in He. lra.
Qed.

Lemma behind_not_below (acosf : float -> float) :
  acosf_accurate acosf (of_Z (-1)) ->
  ltb (acosf (of_Z (-1))) half_fov0 = false.
Proof.
  intros (Hv & Hf & He).
  destruct (ltb (acosf (of_Z (-1))) half_fov0) eqn:E; trivial.
  apply ltb_R in E; trivial. exfalso.
  rewrite SF2R_half_fov0 in E.
  rewrite SF2R_minus_one, acos_minus_one, bpow_m22 in He.
  apply Rabs_le_inv in He. pose proof PI_digits. lra.
Qed.

Lemma beside_not_below (acosf : float -> float) :
  acosf_accurate acosf zero -> ltb (acosf zero) half_fov0 = false.
Proof.
  intros (Hv & Hf & He).
  destruct (ltb (acosf zero) half_fov0) eqn:E; trivial.
  apply ltb_R in E; trivial. exfalso.
  rewrite SF2R_half_fov0 in E.
  rewrite SF2R_zero, acos_0, bpow_m22 in He.
  apply Rabs_le_inv in He. pose proof PI_digits. lra.
Qed.

Lemma main_camera_args (acosf : float -> float) :
  main_camera_tests acosf
  = [false; ltb (acosf one) half_fov0;
     ltb (acosf (of_Z (-1))) half_fov0;
     ltb (acosf zero) half_fov0; ltb (acosf zero) half_fov0;
     ltb (acosf ratio_edge) half_fov0; ltb (acosf ratio_inside) half_fov0;
     ltb (acosf ratio_edge) half_fov0; ltb (acosf ratio_inside) half_fov0].
Proof. reflexivity. Qed.

Lemma acosf_table_accurate :
  acosf_accurate acosf_table one /\
  acosf_accurate acosf_table (of_Z (-1)) /\
  acosf_accurate acosf_table zero /\
  acosf_accurate acosf_table ratio_edge /\
  acosf_accurate acosf_table ratio_inside.
Proof.
  pose proof PI_digits as HPI.
  repeat split; try reflexivity.
  - change (acosf_table one) with zero.
    rewrite SF2R_zero, SF2R_one, acos_1, bpow_m22. apply Rabs_le. lra.
  - change (acosf_table (of_Z (-1))) with pi_f.
    rewrite SF2R_minus_one, acos_minus_one, bpow_m22.
    unfold pi_f. rewrite SF2R_num. change (2 ^ 22)%Z with 4194304%Z.
    apply Rabs_le. lra.
  - change (acosf_table zero) with pio2_f.
    rewrite SF2R_zero, acos_0, bpow_m22.
    unfold pio2_f. rewrite SF2R_num. change (2 ^ 23)%Z with 8388608%Z.
    apply Rabs_le. lra.
  - apply acosf_main_accurate.
  - apply acosf_main_accurate.
Qed.

End MainTrace.

(** For components of absolute value at most 256, [(a - b) + b] equals
    [a] under the approximate equality of [Vec2D]. *)
Theorem sub_add_inverse (a b : Vec2D) :
  vec_within (of_Z 256) a = true -> vec_within (of_Z 256) b = true ->
  vec_eq (vec_add (vec_sub a b) b) a = true.
Proof.
  unfold vec_within. intros Ha Hb.
  apply andb_true_iff in Ha. destruct Ha as [Hax Hay].
  apply andb_true_iff in Hb. destruct Hb as [Hbx Hby].
  unfold vec_eq, vec_sub, vec_add, GetX, GetY. simpl m_x. simpl m_y.
  now rewrite !sub_add_close.
Qed.

Lemma sub_add_inverse_witness :
  vec_eq (vec_add (vec_sub vec5 vec6) vec6) vec5 = true.
Proof. apply (sub_add_inverse vec5 vec6); reflexivity. Defined.

(** The camera tests of [main] give the results its messages announce,
    for every [acosf] that is accurate on the five arguments reached:
    not seen 300 away, seen 50 away, not seen behind, to the right and
    to the left, not seen on either edge of the field of view, seen
    just within either edge. *)
Theorem main_camera_expected (acosf : float -> float) :
  acosf_accurate acosf one -> acosf_accurate acosf (of_Z (-1)) ->
  acosf_accurate acosf zero ->
  acosf_accurate acosf ratio_edge -> acosf_accurate acosf ratio_inside ->
  main_camera_tests acosf
  = [false; true; false; false; false; false; true; false; true].
Proof.
  intros H1 Hm1 H0 He Hi. rewrite main_camera_args.
  now rewrite ahead_below, behind_not_below, beside_not_below,
    edge_not_below, inside_below.
Qed.

Lemma main_camera_expected_witness :
  main_camera_tests acosf_table
  = [false; true; false; false; false; false; true; false; true].
Proof.
  apply (main_camera_expected acosf_table); apply acosf_table_accurate.
Defined.

(** ** The field of view *)

(** Halving a float whose exponent is not the smallest is exact. *)
Lemma div_two_exact (s : bool) (m : positive) (e : Z) :
  valid (S754_finite s m e) = true -> -147 <= e ->
  div (S754_finite s m e) two = S754_finite s m (e - 1).
Proof.
  intros Hv He.
  destruct (valid_finite_facts _ _ _ Hv) as (_ & Hb & Hn).
  assert (Hd : digits2_pos m = 24%positive).
  { specialize (Hn ltac:(lia)). simpl in Hn. now injection Hn. }
  unfold div, SFdiv. rewrite two_bits. unfold SFdiv_core_binary.
  change (Zdigits2 8388608) with 24. simpl Zdigits2. rewrite Hd.
  replace (Z.min (fexp prec emax (24 + e - (24 + -22))) (e - -22))
    with (e - 2) by (rewrite fexp_eq; lia).
  replace (e - -22 - (e - 2)) with 24 by lia.
  rewrite (div_eucl_exact (Z.shiftl (Z.pos m) 24) 8388608 (Z.pos m~0))
    by (rewrite ?Z.shiftl_mul_pow2; lia).
  change (new_location 8388608 0) with loc_Exact.
  unfold binary_round_aux, shr_fexp.
  change (Zdigits2 (Z.pos m~0)) with (Z.pos (Pos.succ (digits2_pos m))).
  rewrite Hd.
  replace (fexp prec emax (Z.pos (Pos.succ 24) + (e - 2)) - (e - 2)) with 1
    by (rewrite fexp_eq; lia).
  simpl shr. cbv beta iota zeta.
  simpl shr_m. simpl loc_of_shr_record. simpl round_nearest_even.
  simpl Zdigits2. rewrite Hd.
  replace (fexp prec emax (24 + (e - 2 + 1)) - (e - 2 + 1)) with 0
    by (rewrite fexp_eq; lia).
  simpl shr. cbv beta iota zeta. simpl shr_m.
  replace (e - 2 + 1) with (e - 1) by lia.
  change (emax - prec) with 104.
  rewrite (proj2 (Z.leb_le (e - 1) 104)) by lia.
  now rewrite xorb_false_r.
Qed.

Lemma Zdigits2_le_24 (q : Z) : 0 <= q < 2 ^ 24 -> Zdigits2 q <= 24.
Proof.
  intros Hq. destruct (Z.eq_dec q 0) as [-> | Hn]; [simpl; lia|].
  pose proof (Zdigits2_bounds q ltac:(lia)) as [Hd _].
  destruct (Z.le_gt_cases (Zdigits2 q) 24) as [|Hgt]; trivial. exfalso.
  assert (2 ^ 24 <= 2 ^ (Zdigits2 q - 1)) by (apply Z.pow_le_mono_r; lia).
  lia.
Qed.

(** Halving a float of one of the two smallest exponents rounds its
    multiple of [2^-149]. *)
Lemma div_two_small (s : bool) (m : positive) (e : Z) :
  valid (S754_finite s m e) = true -> e <= -148 ->
  let n := Z.pos m * 2 ^ (e + 149) in
  is_finite (div (S754_finite s m e) two) = true /\
  exists m2 : Z,
    n / 2 <= m2 <= n / 2 + 1 /\
    (Z.even n = true -> m2 = n / 2) /\
    scaled (div (S754_finite s m e) two) = cond_Zopp s m2.
Proof.
  intros Hv He n. destruct (valid_finite_facts _ _ _ Hv) as (Hd & Hb & _).
  pose proof (Zdigits2_bounds (Z.pos m) ltac:(lia)) as [_ Hm].
  assert (Hm24 : Z.pos m < 2 ^ 24).
  { apply Z.lt_le_trans with (1 := Hm). apply Z.pow_le_mono_r; lia. }
  change (2 ^ 24) with 16777216 in Hm24.
  unfold div, SFdiv. rewrite two_bits, xorb_false_r.
  unfold SFdiv_core_binary.
  change (Zdigits2 8388608) with 24.
  replace (Z.min (fexp prec emax (Zdigits2 (Z.pos m) + e - (24 + -22)))
                 (e - -22))
    with (-149) by (rewrite fexp_eq; lia).
  assert (Hn : exists p : positive,
             e - -22 - -149 = Z.pos p /\
             Z.shiftl (Z.pos m) (Z.pos p) = n * 4194304 /\ 0 < n < 33554432).
  { assert (E : e = -149 \/ e = -148) by lia. unfold n.
    destruct E as [-> | ->]; [exists 22%positive | exists 23%positive];
      (split; [reflexivity|]); rewrite Z.shiftl_mul_pow2 by lia;
      [change (2 ^ 22) with 4194304; change (2 ^ (-149 + 149)) with 1
      |change (2 ^ 23) with 8388608; change (2 ^ (-148 + 149)) with 2];
      lia. }
  destruct Hn as (p & -> & -> & Hn). cbv beta iota zeta.
  pose proof (Z_div_mod (n * 4194304) 8388608 ltac:(lia)) as Hqr.
  destruct (Z.div_eucl (n * 4194304) 8388608) as [q r].
  destruct Hqr as [Hq Hr].
  assert (Hq2 : q = n / 2) by (Z.to_euclidean_division_equations; lia).
  assert (Hq24 : 0 <= q < 2 ^ 24)
    by (change (2 ^ 24) with 16777216;
        Z.to_euclidean_division_equations; lia).
  pose proof (Zdigits2_le_24 q Hq24) as Hdq.
  pose proof (Zdigits2_nonneg q) as Hdq0.
  assert (He1 : fexp prec emax (Zdigits2 q + -149) = -149)
    by (rewrite fexp_eq; lia).
  destruct (binary_round_aux_Z s q (-149)
              (new_location 8388608 r) ltac:(lia) ltac:(lia))
    as (m2 & Hm2 & Hex & Hres).
  rewrite He1 in Hm2, Hex, Hres.
  change (-149 - -149) with 0 in Hm2. rewrite Z.pow_0_r, Z.div_1_r in Hm2.
  assert (Heven : Z.even n = true -> m2 = n / 2).
  { intros E. rewrite Zeven_mod in E. apply Z.eqb_eq in E.
    assert (r = 0) by (Z.to_euclidean_division_equations; lia). subst r.
    rewrite <- Hq2. now apply Hex. }
  destruct Hres as [[Hz ->] | (m3 & e3 & Hm3 & He3 & _ & _ & ->)].
  - split; trivial. exists m2. repeat split; try lia; trivial.
    subst m2. now destruct s.
  - change (emax - prec) with 104.
    rewrite (proj2 (Z.leb_le e3 104)) by lia.
    split; trivial. exists m2. repeat split; try lia; trivial.
    simpl scaled. rewrite Hm3.
    now replace (e3 - -149) with (e3 + 149) by lia.
Qed.

(** Halving in multiples of [2^-149]: exact for an even multiple, one
    of the two neighbours for an odd one. *)
Lemma div_two_scaled (f : float) :
  valid f = true -> is_finite f = true ->
  is_finite (div f two) = true /\
  scaled f / 2 <= scaled (div f two) <= scaled f / 2 + 1 /\
  (Z.even (scaled f) = true -> scaled (div f two) = scaled f / 2).
Proof.
  intros Hv Hf. destruct f as [s|s| |s m e]; try discriminate Hf.
  - destruct s; repeat split; intros; try reflexivity; now compute.
  - destruct (valid_finite_facts _ _ _ Hv) as (_ & He & _).
    destruct (Z_le_gt_dec e (-148)) as [Hs | Hl].
    + destruct (div_two_small s m e Hv Hs) as (Hfin & m2 & Hm2 & Hev & ->).
      split; trivial. unfold scaled.
      set (n := Z.pos m * 2 ^ (e + 149)) in *.
      destruct s; unfold cond_Zopp.
      * rewrite Z.even_opp.
        destruct (Z.even n) eqn:E.
        -- rewrite (Hev eq_refl). rewrite Zeven_mod in E.
           apply Z.eqb_eq in E. clear Hev Hm2.
           split; [|intros _]; Z.to_euclidean_division_equations; lia.
        -- rewrite Zeven_mod in E. apply Z.eqb_neq in E. clear Hev.
           split; [|discriminate].
           Z.to_euclidean_division_equations; lia.
      * split; [lia | exact Hev].
    + rewrite div_two_exact by (trivial; lia). split; trivial.
      unfold scaled. replace (e + 149) with (Z.succ (e - 1 + 149)) by lia.
      rewrite Z.pow_succ_r by lia.
      set (P := 2 ^ (e - 1 + 149)).
      replace (Z.pos m * (2 * P)) with (2 * (Z.pos m * P)) by ring.
      set (X := Z.pos m * P).
      destruct s; unfold cond_Zopp;
        (split; [|intros _]); Z.to_euclidean_division_equations; lia.
Qed.

Lemma half_mono (n n' h h' : Z) :
  n < n' ->
  n / 2 <= h <= n / 2 + 1 -> (Z.even n = true -> h = n / 2) ->
  n' / 2 <= h' <= n' / 2 + 1 -> (Z.even n' = true -> h' = n' / 2) ->
  h <= h'.
Proof.
  intros Hn Hh He Hh' He'. rewrite Zeven_mod in He, He'.
  assert (E : n mod 2 = 0 -> h = n / 2)
    by (intros E; apply He; now apply Z.eqb_eq).
  assert (E' : n' mod 2 = 0 -> h' = n' / 2)
    by (intros E'; apply He'; now apply Z.eqb_eq).
  clear He He'. Z.to_euclidean_division_equations. lia.
Qed.

Lemma compare_Eq_inv (x y : float) :
  SFcompare x y = Some Eq -> same_or_zeros x y.
Proof.
  destruct x as [sx|sx| |sx mx ex], y as [sy|sy| |sy my ey];
    intros H; try discriminate H;
    try (right; now split);
    try (destruct sx; discriminate H); try (destruct sy; discriminate H);
    left.
  - destruct sx, sy; try discriminate H; reflexivity.
  - simpl in H.
    destruct sx, sy; try discriminate H;
      destruct (Z.compare_spec ex ey) as [E| |]; try discriminate H; subst;
      change (Pos.compare_cont Eq ?a ?b) with (Pos.compare a b) in H;
      injection H as H; try (apply CompOpp_iff in H; simpl in H);
      apply Pos.compare_eq in H; now subst.
Qed.

Lemma leb_refl (x : float) : is_nan x = false -> leb x x = true.
Proof.
  destruct x as [s|[|]| |[|] m e]; try discriminate; intros _; trivial;
    unfold leb, SFleb, SFcompare; rewrite Z.compare_refl;
    change (Pos.compare_cont Eq m m) with (Pos.compare m m);
    now rewrite Pos.compare_refl.
Qed.

Section Scaled.

Local Open Scope R_scope.

Lemma SF2R_scaled (f : float) :
  valid f = true -> SF2R f = IZR (scaled f) * bpow (-149).
Proof.
  intros Hv. destruct f as [s|s| |s m e]; unfold scaled; try (simpl; lra).
  destruct (valid_finite_facts _ _ _ Hv) as (_ & He & _).
  rewrite SF2R_finite. replace e with (-149 + (e + 149))%Z at 1 by lia.
  rewrite bpow_shift by lia.
  unfold sgnR, cond_Zopp. destruct s; rewrite ?opp_IZR, mult_IZR; ring.
Qed.

Lemma leb_scaled (x y : float) :
  valid x = true -> valid y = true ->
  is_finite x = true -> is_finite y = true ->
  (scaled x <= scaled y)%Z -> leb x y = true.
Proof.
  intros Vx Vy Fx Fy H. apply leb_R; trivial.
  rewrite !SF2R_scaled by trivial. apply IZR_le in H.
  pose proof (bpow_gt_0 (-149)). nra.
Qed.

Lemma ltb_scaled (x y : float) :
  valid x = true -> valid y = true ->
  is_finite x = true -> is_finite y = true ->
  ltb x y = true -> (scaled x < scaled y)%Z.
Proof.
  intros Vx Vy Fx Fy H. apply ltb_R in H; trivial.
  rewrite !SF2R_scaled in H by trivial.
  pose proof (bpow_gt_0 (-149)). apply lt_IZR. nra.
Qed.

End Scaled.

(** Halving keeps the order. *)
Lemma div_two_mono (f f' : float) :
  valid f = true -> valid f' = true -> leb f f' = true ->
  leb (div f two) (div f' two) = true.
Proof.
  intros Vf Vf' H.
  destruct (leb_not_nan _ _ H) as [Nf Nf'].
  destruct (div_two_facts f Vf Nf) as [Vh Nh].
  destruct (div_two_facts f' Vf' Nf') as [Vh' Nh'].
  destruct (SFcompare f f') as [[ | | ]|] eqn:E;
    try (unfold leb, SFleb in H; rewrite E in H; discriminate H).
  - destruct (compare_Eq_inv _ _ E) as [<- | [Z1 Z2]].
    + now apply leb_refl.
    + destruct f as [[|]| | |], f' as [[|]| | |]; try discriminate;
        reflexivity.
  - destruct (is_finite f) eqn:Ff; [destruct (is_finite f') eqn:Ff'|].
    + destruct (div_two_scaled f Vf Ff) as (Fh & Hh & He).
      destruct (div_two_scaled f' Vf' Ff') as (Fh' & Hh' & He').
      apply leb_scaled; trivial.
      apply (half_mono (scaled f) (scaled f')); trivial.
      apply ltb_scaled; trivial. unfold ltb, SFltb. now rewrite E.
    + destruct f' as [s'|[|]| |s' m' e']; try discriminate.
      * destruct f as [s|[|]| |[|] m e]; discriminate.
      * change (div (S754_infinity false) two) with (S754_infinity false).
        destruct (div f two) as [s|[|]| |[|] m e]; try discriminate;
          reflexivity.
    + destruct f as [s|[|]| |s m e]; try discriminate.
      * change (div (S754_infinity true) two) with (S754_infinity true).
        destruct (div f' two) as [s|[|]| |[|] m e]; try discriminate;
          reflexivity.
      * destruct f' as [s'|[|]| |[|] m' e']; discriminate.
Qed.

(** Widening the field of view never loses a target: a target seen
    with the field of view [f] is seen with every wider one. *)
Theorem CanSeeTarget_field_of_view_mono (acosf : float -> float)
    (c : Camera2D) (t : Vec2D) (f f' : float) :
  valid f = true -> valid f' = true -> leb f f' = true ->
  valid (angleToTarget acosf c t) = true ->
  CanSeeTarget acosf (SetFieldOfView c f) t = true ->
  CanSeeTarget acosf (SetFieldOfView c f') t = true.
Proof.
  intros Vf Vf' Hle Va.
  unfold CanSeeTarget, angleToTarget, SetFieldOfView in *.
  cbn [m_position m_viewDistance m_fieldOfView m_orientation] in *.
  destruct (vec_eq t (m_position c)); trivial.
  destruct (leb _ (m_viewDistance c)); trivial.
  cbv beta iota zeta. intros H.
  destruct (leb_not_nan _ _ Hle) as [Nf Nf'].
  apply (ltb_leb_trans _ (div f two)); trivial.
  - now apply div_two_facts.
  - now apply div_two_facts.
  - now apply div_two_mono.
Qed.

Lemma CanSeeTarget_field_of_view_mono_witness :
  CanSeeTarget acosf_main (SetFieldOfView cam0 PI_F) vec13 = true.
Proof.
  apply (CanSeeTarget_field_of_view_mono acosf_main cam0 vec13
           (m_fieldOfView cam0) PI_F); reflexivity.
Defined.

(** ** Positions, signs, and the tolerance in real numbers *)

Lemma sub_not_finite_r (x y : float) :
  is_finite y = false ->
  sub x y = S754_nan \/ exists s, sub x y = S754_infinity s.
Proof.
  destruct y as [sy|sy| |sy my ey]; try discriminate; intros _;
    destruct x as [sx|sx| |sx mx ex]; simpl; eauto.
  destruct sx, sy; eauto.
Qed.

(** A camera whose position has a coordinate that is infinite or not a
    number sees no target, when its view distance is finite. *)
Theorem CanSeeTarget_position_not_finite (acosf : float -> float)
    (c : Camera2D) (t : Vec2D) :
  is_finite (m_x (m_position c)) && is_finite (m_y (m_position c)) = false ->
  is_finite (m_viewDistance c) = true ->
  CanSeeTarget acosf c t = false.
Proof.
  intros Hp Hvd. unfold CanSeeTarget.
  destruct (vec_eq t (m_position c)); trivial.
  assert (Hm : GetMagnitude (vec_sub t (m_position c)) = S754_nan \/
               GetMagnitude (vec_sub t (m_position c)) = S754_infinity false).
  { unfold vec_sub. apply magnitude_not_finite.
    apply andb_false_iff in Hp. destruct Hp as [Hp | Hp];
      [left | right]; now apply sub_not_finite_r. }
  destruct Hm as [-> | ->]; trivial.
  now destruct (m_viewDistance c).
Qed.

Lemma CanSeeTarget_position_not_finite_witness :
  CanSeeTarget acosf_zero (SetPosition cam0 (mkVec2D S754_nan zero)) vec8
  = false.
Proof.
  apply (CanSeeTarget_position_not_finite acosf_zero
           (SetPosition cam0 (mkVec2D S754_nan zero)) vec8); reflexivity.
Defined.

(** A quotient by a magnitude that is not zero keeps the sign of a
    finite dividend, and is a number. *)
Lemma div_magnitude_sign (x d : float) :
  is_finite x = true -> signbit d = false -> is_nan d = false ->
  is_zero d = false ->
  signbit (div x d) = signbit x /\ is_nan (div x d) = false.
Proof.
  intros Fx Sd Nd Zd.
  destruct x as [s|s| |s m e]; try discriminate Fx;
    destruct d as [sd|sd| |sd md ed]; try discriminate;
    simpl in Sd; subst sd; try (now destruct s).
  destruct (div_finite_facts s false m md e ed) as [H1 H2].
  rewrite xorb_false_r in H1. now split.
Qed.

(** The unit vector of a vector with finite components has components
    that are numbers, and, when the magnitude is not zero, of the same
    sign as the vector's. *)
Theorem GetNormalized_signs (v : Vec2D) :
  is_finite (m_x v) = true -> is_finite (m_y v) = true ->
  is_nan (m_x (GetNormalized v)) = false /\
  is_nan (m_y (GetNormalized v)) = false /\
  (is_zero (GetMagnitude v) = false ->
   signbit (m_x (GetNormalized v)) = signbit (m_x v) /\
   signbit (m_y (GetNormalized v)) = signbit (m_y v)).
Proof.
  intros Fx Fy. unfold GetNormalized, neqb.
  change (SFeqb (GetMagnitude v) zero) with (eqb (GetMagnitude v) zero).
  rewrite eqb_zero.
  destruct (GetMagnitude_facts v) as (Sd & _ & Nd & _).
  assert (Nv : is_nan (m_x v) || is_nan (m_y v) = false).
  { destruct (m_x v); try discriminate Fx;
      destruct (m_y v); try discriminate Fy; reflexivity. }
  rewrite Nv in Nd.
  destruct (is_zero (GetMagnitude v)) eqn:Z; simpl negb; cbv iota.
  - split; [reflexivity|]. split; [reflexivity|]. intros H. discriminate H.
  - destruct (div_magnitude_sign (m_x v) _ Fx Sd Nd Z) as [Sx Nx].
    destruct (div_magnitude_sign (m_y v) _ Fy Sd Nd Z) as [Sy Ny].
    simpl m_x. simpl m_y. repeat split; trivial.
Qed.

Lemma GetNormalized_signs_witness :
  signbit (m_x (GetNormalized vec6)) = false /\
  signbit (m_y (GetNormalized vec6)) = true.
Proof.
  apply (GetNormalized_signs vec6); reflexivity.
Defined.

Section Tolerance.

Local Open Scope R_scope.

(** One component of [operator==], in real numbers *)
Lemma component_tolerance (x y : float) :
  finite x = true -> finite y = true ->
  (gtb MAX_FLOAT_TOLERANCE (abs (sub x y)) = true ->
   Rabs (SF2R x - SF2R y) < 10001 / 100000000) /\
  (Rabs (SF2R x - SF2R y) <= 9999 / 100000000 ->
   gtb MAX_FLOAT_TOLERANCE (abs (sub x y)) = true).
Proof.
  intros Hx Hy.
  destruct (finite_facts x Hx) as [Vx Fx].
  destruct (finite_facts y Hy) as [Vy Fy].
  pose proof (sub_spec x y Vx Vy Fx Fy) as Hs.
  pose proof bpow_m149_le as Heta. pose proof (bpow_gt_0 (-149)) as Heta0.
  pose proof bpow_127_ge as Hbig.
  pose proof (Rabs_pos (SF2R x - SF2R y)) as Hpos.
  split; intros H.
  - unfold gtb in H.
    assert (Fd : is_finite (sub x y) = true).
    { destruct (sub x y) as [s|[|]| |s m e]; trivial; discriminate H. }
    apply round_result_finite in Hs; trivial.
    pose proof (rounded_abs_err _ _ Hs) as E.
    destruct Hs as (Vd & _ & _).
    apply ltb_R in H; trivial;
      [|now rewrite abs_valid | now rewrite abs_finite].
    rewrite abs_R, SF2R_tolerance in H.
    apply Rabs_def2 in H.
    destruct (Rcase_abs (SF2R x - SF2R y)) as [Hn | Hn].
    + rewrite (Rabs_left _ Hn) in *. lra.
    + rewrite (Rabs_right _ Hn) in *. lra.
  - apply round_result_small in Hs; [|lra].
    pose proof (rounded_abs_err _ _ Hs) as E.
    destruct Hs as (Vd & Fd & _).
    unfold gtb. apply ltb_R; trivial;
      [now rewrite abs_valid | now rewrite abs_finite |].
    pose proof (Rabs_le_inv _ _ H) as Hv.
    rewrite abs_R, SF2R_tolerance. apply Rabs_def1; lra.
Qed.

End Tolerance.

(** [operator==] in real numbers, for vectors with finite components:
    equal vectors differ by less than 0.00010001 in each component, and
    vectors that differ by at most 0.00009999 in each component are
    equal. *)
Theorem vec_eq_tolerance (a b : Vec2D) :
  vec_finite a = true -> vec_finite b = true ->
  (vec_eq a b = true ->
   (Rabs (SF2R (m_x a) - SF2R (m_x b)) < 10001 / 100000000 /\
    Rabs (SF2R (m_y a) - SF2R (m_y b)) < 10001 / 100000000)%R) /\
  ((Rabs (SF2R (m_x a) - SF2R (m_x b)) <= 9999 / 100000000 /\
    Rabs (SF2R (m_y a) - SF2R (m_y b)) <= 9999 / 100000000)%R ->
   vec_eq a b = true).
Proof.
  unfold vec_finite. intros Ha Hb.
  apply andb_true_iff in Ha. destruct Ha as [Hax Hay].
  apply andb_true_iff in Hb. destruct Hb as [Hbx Hby].
  destruct (component_tolerance _ _ Hax Hbx) as [X1 X2].
  destruct (component_tolerance _ _ Hay Hby) as [Y1 Y2].
  unfold vec_eq, GetX, GetY. split.
  - intros H. apply andb_true_iff in H. destruct H as [H1 H2]. auto.
  - intros [H1 H2]. rewrite X2, Y2; trivial.
Qed.

Lemma vec_eq_tolerance_witness :
  (vec_eq vec5 vec5 = true ->
   (Rabs (SF2R (m_x vec5) - SF2R (m_x vec5)) < 10001 / 100000000 /\
    Rabs (SF2R (m_y vec5) - SF2R (m_y vec5)) < 10001 / 100000000)%R) /\
  ((Rabs (SF2R (m_x vec5) - SF2R (m_x vec5)) <= 9999 / 100000000 /\
    Rabs (SF2R (m_y vec5) - SF2R (m_y vec5)) <= 9999 / 100000000)%R ->
   vec_eq vec5 vec5 = true).
Proof. apply (vec_eq_tolerance vec5 vec5); reflexivity. Defined.
